(** * secevent-js: claim assembly and validation engine

    A shallow embedding of the builder ([src/builder/builder.ts]), the
    event factory helpers ([src/types/events.ts]) and the parser/validator
    ([src/parser/parser.ts]) of the Security Event Token library, followed
    by the properties established about them.

    JavaScript objects are finite maps from property names to values
    (stdpp's [gmap string]); the order in which [Object.keys] enumerates an
    object is the enumeration order of the map, and no statement below
    depends on it.  Thrown values and the external collaborators (the
    [jose] verifier and decoder, the platform URL parser, the ID generator
    and the clock) are explicit: functions that can throw return a sum, and
    code that calls a collaborator threads the state of the outside world. *)

From Stdlib Require Import QArith Qround.
From stdpp Require Import gmap strings list fin_maps pretty.

Set Warnings "-register-all".

(** ** JavaScript values *)

Module Js.

(** Numbers: a finite number is an exact rational (every finite double is
    one; negative zero is zero), and there are [NaN] and the two
    infinities.  A rational stands for the finite number of that value. *)
Inductive JsNumber : Type :=
  | Finite (q : Q)
  | NaN
  | Infinity (negative : bool).

Coercion Finite : Q >-> JsNumber.
Bind Scope Q_scope with JsNumber.

(** The values that reach the modelled code: JSON values plus [undefined]
    and the numbers that are not finite. *)
Inductive JsValue : Type :=
  | JUndefined
  | JNull
  | JBool (b : bool)
  | JNum (n : JsNumber)
  | JStr (s : string)
  | JArr (l : list JsValue)
  | JObj (o : gmap string JsValue).

Abbreviation JsObject := (gmap string JsValue).

Inductive JsType : Type :=
  | TUndefined | TObject | TBoolean | TNumber | TString.

#[global] Instance JsType_eq_dec : EqDecision JsType.
Proof. solve_decision. Defined.

(** [typeof v]; note [typeof null] and [typeof []] are both ['object']. *)
Definition typeof (v : JsValue) : JsType :=
  match v with
  | JUndefined => TUndefined
  | JNull => TObject
  | JBool _ => TBoolean
  | JNum _ => TNumber
  | JStr _ => TString
  | JArr _ => TObject
  | JObj _ => TObject
  end.

(** ToBoolean of a number: zero and [NaN] are falsy. *)
Definition number_truthy (n : JsNumber) : bool :=
  match n with
  | Finite q => negb (Qeq_bool q 0)
  | NaN => false
  | Infinity _ => true
  end.

(** The numbers that count as unset in [n || fallback]. *)
Definition zero_or_NaN (n : JsNumber) : Prop :=
  match n with
  | Finite q => (q == 0)%Q
  | NaN => True
  | Infinity _ => False
  end.

(** ToBoolean: what [if (v)], [!v] and [v || w] look at. *)
Definition truthy (v : JsValue) : bool :=
  match v with
  | JUndefined => false
  | JNull => false
  | JBool b => b
  | JNum n => number_truthy n
  | JStr s => negb (String.eqb s "")
  | JArr _ => true
  | JObj _ => true
  end.

(** [o.k]: reading a property that is not there gives [undefined]. *)
Definition prop (o : JsObject) (k : string) : JsValue :=
  default JUndefined (o !! k).

(** Whether [o] has the property [k] of its own. *)
Definition has_prop (o : JsObject) (k : string) : bool :=
  bool_decide (is_Some (o !! k)).

(** The property names every plain object inherits from
    [Object.prototype]. *)
Definition Object_prototype_names : list string :=
  ["constructor"; "__defineGetter__"; "__defineSetter__"; "hasOwnProperty";
   "__lookupGetter__"; "__lookupSetter__"; "isPrototypeOf";
   "propertyIsEnumerable"; "toString"; "valueOf"; "__proto__"; "toLocaleString"].

Definition inherited (k : string) : bool :=
  bool_decide (k ∈ Object_prototype_names).

(** [k in o] for a plain object [o], one whose prototype is
    [Object.prototype] (an object literal, or what [JSON.parse] gives): the
    property is its own or inherited. *)
Definition in_operator (k : string) (o : JsObject) : bool :=
  has_prop o k || inherited k.

(** An optional parameter or field of type [A]: [None] is [undefined]. *)
Definition optional {A : Type} (inj : A -> JsValue) (a : option A) : JsValue :=
  from_option inj JUndefined a.

(** An object literal [{ k1: v1, ..., kn: vn }]: a repeated key keeps the
    later value. *)
Definition obj_literal (fields : list (string * JsValue)) : JsObject :=
  foldl (fun o kv => <[kv.1 := kv.2]> o) ∅ fields.

(** [{ ...base, ...extra }]: the properties of [extra] win. *)
Definition spread (base extra : JsObject) : JsObject := extra ∪ base.

(** [{ ...base, ...extra }] where [extra] may be [undefined], which adds
    nothing. *)
Definition spread_optional (base : JsObject) (extra : option JsObject) : JsObject :=
  match extra with
  | Some e => spread base e
  | None => base
  end.

Definition own_keys (o : JsObject) : list string := (map_to_list o).*1.

(** The keys ["0"], ..., [n-1] of an array or string of length [n]. *)
Definition index_keys (n : nat) : list string := pretty <$> seq 0 n.

(** [Object.keys(v)] for a value [v] that is not [undefined] or [null] (on
    those it throws; the modelled code only calls it behind a truthiness
    test, and the model answers [[]] there). *)
Definition Object_keys (v : JsValue) : list string :=
  match v with
  | JObj o => own_keys o
  | JArr l => index_keys (length l)
  | JStr s => index_keys (String.length s)
  | JUndefined | JNull | JBool _ | JNum _ => []
  end.

(** Whether a number is an integer ([Number.isInteger]). *)
Definition is_integer (n : JsNumber) : bool :=
  match n with
  | Finite q => Qeq_bool (inject_Z (Qfloor q)) q
  | NaN | Infinity _ => false
  end.

(** What a [throw] can carry: an [Error] object with its message, or some
    other value, of which only the truthiness is ever inspected. *)
Inductive Thrown : Type :=
  | ErrorObj (message : string)
  | NonError (is_truthy : bool).

Definition thrown_truthy (e : Thrown) : bool :=
  match e with
  | ErrorObj _ => true
  | NonError t => t
  end.

(** [error instanceof Error ? error.message : fallback] *)
Definition message_or (fallback : string) (e : Thrown) : string :=
  match e with
  | ErrorObj m => m
  | NonError _ => fallback
  end.

(** [string | string[]], the type of audiences and expected issuers. *)
Inductive StringOrArray : Type :=
  | OneString (s : string)
  | StringArray (l : list string).

Definition of_string_or_array (a : StringOrArray) : JsValue :=
  match a with
  | OneString s => JStr s
  | StringArray l => JArr (JStr <$> l)
  end.

(** [SigningKey] of [src/types/secevent.ts]; the key material is owned by
    the cryptography collaborator. *)
Record SigningKey (KeyMaterial : Type) : Type := {
  kid : option string;
  alg : string;
  key : KeyMaterial
}.
Arguments kid {KeyMaterial} _.
Arguments alg {KeyMaterial} _.
Arguments key {KeyMaterial} _.

End Js.

Import Js.

(** ** Event-type registry and factory helpers ([src/types/events.ts]) *)

Module Events.

Definition SESSION_REVOKED : string :=
  "https://schemas.openid.net/secevent/caep/event-type/session-revoked".
Definition TOKEN_CLAIMS_CHANGE : string :=
  "https://schemas.openid.net/secevent/caep/event-type/token-claims-change".
Definition CREDENTIAL_CHANGE : string :=
  "https://schemas.openid.net/secevent/caep/event-type/credential-change".
Definition ASSURANCE_LEVEL_CHANGE : string :=
  "https://schemas.openid.net/secevent/caep/event-type/assurance-level-change".
Definition DEVICE_COMPLIANCE_CHANGE : string :=
  "https://schemas.openid.net/secevent/caep/event-type/device-compliance-change".
Definition STREAM_UPDATED : string :=
  "https://schemas.openid.net/secevent/ssf/event-type/stream-updated".
Definition VERIFICATION : string :=
  "https://schemas.openid.net/secevent/ssf/event-type/verification".

(** [{ subject, event_timestamp: timestamp }], the fields every CAEP helper
    starts its record with. *)
Definition subject_and_timestamp (subject : JsValue) (timestamp : JsNumber) : list (string * JsValue) :=
  [("subject", subject); ("event_timestamp", JNum timestamp)].

Definition sessionRevoked (subject : JsValue) (timestamp : JsNumber) (reason : option string) : JsObject :=
  {[ SESSION_REVOKED :=
       JObj (obj_literal (subject_and_timestamp subject timestamp
                            ++ [("reason", optional JStr reason)])) ]}.

Definition tokenClaimsChange (subject : JsValue) (timestamp : JsNumber) (claims : option JsObject) : JsObject :=
  {[ TOKEN_CLAIMS_CHANGE :=
       JObj (obj_literal (subject_and_timestamp subject timestamp
                            ++ [("claims", optional JObj claims)])) ]}.

Definition credentialChange (subject : JsValue) (timestamp : JsNumber) (options : option JsObject) : JsObject :=
  {[ CREDENTIAL_CHANGE :=
       JObj (spread_optional (obj_literal (subject_and_timestamp subject timestamp)) options) ]}.

Definition assuranceLevelChange (subject : JsValue) (timestamp : JsNumber) (options : option JsObject) : JsObject :=
  {[ ASSURANCE_LEVEL_CHANGE :=
       JObj (spread_optional (obj_literal (subject_and_timestamp subject timestamp)) options) ]}.

Definition deviceComplianceChange (subject : JsValue) (timestamp : JsNumber) (options : option JsObject) : JsObject :=
  {[ DEVICE_COMPLIANCE_CHANGE :=
       JObj (spread_optional (obj_literal (subject_and_timestamp subject timestamp)) options) ]}.

Definition streamUpdated (effectiveTime : option JsNumber) : JsObject :=
  {[ STREAM_UPDATED := JObj (obj_literal [("effective_time", optional JNum effectiveTime)]) ]}.

Definition verification (state : option string) : JsObject :=
  {[ VERIFICATION := JObj (obj_literal [("state", optional JStr state)]) ]}.

End Events.

(** ** The builder ([src/builder/builder.ts]) *)

Module Builder.

Section WithWorld.

(** The state of everything outside the builder: the clock and whatever the
    ID generators keep (counters, the random source). *)
Context {World KeyMaterial : Type}.

(** [IdGenerator.generate()] *)
Definition IdGenerator : Type := World -> string * World.

(** [defaultIdGenerator] of [src/id/generator.ts] and [Date.now()], in
    milliseconds. *)
Variable defaultIdGenerator : IdGenerator.
Variable Date_now : World -> Z.

Record BuilderOptions : Type := {
  defaultIssuer : option string;
  defaultAudience : option StringOrArray;
  idGenerator : option IdGenerator;
  signingKey : option (SigningKey KeyMaterial)
}.

(** The prototype of the object held in [additionalClaims].  It starts as
    [Object.prototype], and [withClaim('__proto__', v)] can replace it by
    [v], which is then [null], an object or an array; values are plain data,
    whose own prototype chain ends in [Object.prototype]. *)
Inductive Prototype : Type :=
  | Object_prototype
  | Proto (v : JsValue).

(** Whether an assignment to [__proto__] on an object with this prototype,
    and without a property of that name of its own, reaches the accessor of
    [Object.prototype]: not past [null], and not past an object that has a
    data property of that name. *)
Definition proto_accessor_inherited (proto : Prototype) : bool :=
  match proto with
  | Object_prototype => true
  | Proto JNull => false
  | Proto (JObj o) => negb (has_prop o "__proto__")
  | Proto _ => true
  end.

(** The fields of a [SecEventBuilder]; [this_signingKey] is the instance's
    [signingKey] (the option of the same name is [signingKey] above), and
    [claims_prototype] is the prototype of the [additionalClaims] object,
    whose own properties are [additionalClaims]. *)
Record SecEventBuilder : Type := {
  options : BuilderOptions;
  issuer : option string;
  audience : option StringOrArray;
  jti : option string;
  iat : option JsNumber;
  txn : option string;
  events : JsObject;
  additionalClaims : JsObject;
  claims_prototype : Prototype;
  this_signingKey : option (SigningKey KeyMaterial)
}.

(** [new SecEventBuilder(options)]; [createBuilder] is the same. *)
Definition new_SecEventBuilder (opts : BuilderOptions) : SecEventBuilder :=
  {| options := opts;
     issuer := defaultIssuer opts;
     audience := defaultAudience opts;
     jti := None;
     iat := None;
     txn := None;
     events := ∅;
     additionalClaims := ∅;
     claims_prototype := Object_prototype;
     this_signingKey := signingKey opts |}.

Definition createBuilder (opts : option BuilderOptions) : SecEventBuilder :=
  new_SecEventBuilder
    (default {| defaultIssuer := None; defaultAudience := None;
                idGenerator := None; signingKey := None |} opts).

Definition withIssuer (v : string) (b : SecEventBuilder) : SecEventBuilder :=
  {| options := options b; issuer := Some v; audience := audience b; jti := jti b;
     iat := iat b; txn := txn b; events := events b;
     additionalClaims := additionalClaims b; claims_prototype := claims_prototype b;
     this_signingKey := this_signingKey b |}.

Definition withAudience (v : StringOrArray) (b : SecEventBuilder) : SecEventBuilder :=
  {| options := options b; issuer := issuer b; audience := Some v; jti := jti b;
     iat := iat b; txn := txn b; events := events b;
     additionalClaims := additionalClaims b; claims_prototype := claims_prototype b;
     this_signingKey := this_signingKey b |}.

Definition withJti (v : string) (b : SecEventBuilder) : SecEventBuilder :=
  {| options := options b; issuer := issuer b; audience := audience b; jti := Some v;
     iat := iat b; txn := txn b; events := events b;
     additionalClaims := additionalClaims b; claims_prototype := claims_prototype b;
     this_signingKey := this_signingKey b |}.

Definition withIat (v : JsNumber) (b : SecEventBuilder) : SecEventBuilder :=
  {| options := options b; issuer := issuer b; audience := audience b; jti := jti b;
     iat := Some v; txn := txn b; events := events b;
     additionalClaims := additionalClaims b; claims_prototype := claims_prototype b;
     this_signingKey := this_signingKey b |}.

Definition withTxn (v : string) (b : SecEventBuilder) : SecEventBuilder :=
  {| options := options b; issuer := issuer b; audience := audience b; jti := jti b;
     iat := iat b; txn := Some v; events := events b;
     additionalClaims := additionalClaims b; claims_prototype := claims_prototype b;
     this_signingKey := this_signingKey b |}.

Definition set_events (ev : JsObject) (b : SecEventBuilder) : SecEventBuilder :=
  {| options := options b; issuer := issuer b; audience := audience b; jti := jti b;
     iat := iat b; txn := txn b; events := ev;
     additionalClaims := additionalClaims b; claims_prototype := claims_prototype b;
     this_signingKey := this_signingKey b |}.

(** The [additionalClaims] object with the own properties [c] and the
    prototype [proto]. *)
Definition set_additionalClaims (c : JsObject) (proto : Prototype) (b : SecEventBuilder)
  : SecEventBuilder :=
  {| options := options b; issuer := issuer b; audience := audience b; jti := jti b;
     iat := iat b; txn := txn b; events := events b;
     additionalClaims := c; claims_prototype := proto;
     this_signingKey := this_signingKey b |}.

(** [this.events = { ...this.events, ...event }] *)
Definition withEvent (event : JsObject) (b : SecEventBuilder) : SecEventBuilder :=
  set_events (spread (events b) event) b.

(** [events.forEach(event => this.events = { ...this.events, ...event })] *)
Definition withEvents (evs : list JsObject) (b : SecEventBuilder) : SecEventBuilder :=
  foldl (fun acc event => withEvent event acc) b evs.

(** [this.additionalClaims[key] = value].  The assignment writes a property
    of the object's own, except when the key is [__proto__], the object has
    no property of that name of its own, and the accessor of
    [Object.prototype] is reached: the accessor makes [null], an object or
    an array the prototype of the object, ignores any other value, and in
    neither case gives the object a property. *)
Definition withClaim (k : string) (v : JsValue) (b : SecEventBuilder) : SecEventBuilder :=
  if String.eqb k "__proto__"
     && negb (has_prop (additionalClaims b) "__proto__")
     && proto_accessor_inherited (claims_prototype b)
  then
    match v with
    | JNull | JObj _ | JArr _ => set_additionalClaims (additionalClaims b) (Proto v) b
    | JUndefined | JBool _ | JNum _ | JStr _ => b
    end
  else set_additionalClaims (<[k := v]> (additionalClaims b)) (claims_prototype b) b.

(** [this.additionalClaims = { ...this.additionalClaims, ...claims }]: a new
    object, which gets every own property of the two, [__proto__]
    included. *)
Definition withClaims (claims : JsObject) (b : SecEventBuilder) : SecEventBuilder :=
  set_additionalClaims (spread (additionalClaims b) claims) Object_prototype b.

Definition withSigningKey (k : SigningKey KeyMaterial) (b : SecEventBuilder) : SecEventBuilder :=
  {| options := options b; issuer := issuer b; audience := audience b; jti := jti b;
     iat := iat b; txn := txn b; events := events b;
     additionalClaims := additionalClaims b; claims_prototype := claims_prototype b;
     this_signingKey := Some k |}.

(** [this.jti || idGenerator.generate()]: the generator runs only when the
    left operand is falsy. *)
Definition jti_or_generate (b : SecEventBuilder) (w : World) : string * World :=
  let idGen := default defaultIdGenerator (idGenerator (options b)) in
  match jti b with
  | Some j => if truthy (JStr j) then (j, w) else idGen w
  | None => idGen w
  end.

(** [this.iat || Math.floor(Date.now() / 1000)] *)
Definition iat_or_now (b : SecEventBuilder) (w : World) : JsNumber :=
  let now := Finite (inject_Z (Date_now w / 1000)) in
  match iat b with
  | Some t => if truthy (JNum t) then t else now
  | None => now
  end.

(** The object [buildPayload] assembles once it has settled on the
    identifier and the time: the object literal with the custom claims
    spread after the four fixed fields, then [aud] and [txn] assigned when
    truthy. *)
Definition assembled (b : SecEventBuilder) (id : string) (t : JsNumber) : JsObject :=
  let payload :=
    spread
      (obj_literal [("iss", optional JStr (issuer b));
                    ("jti", JStr id);
                    ("iat", JNum t);
                    ("events", JObj (events b))])
      (additionalClaims b) in
  let payload :=
    if truthy (optional of_string_or_array (audience b))
    then <["aud" := optional of_string_or_array (audience b)]> payload
    else payload in
  if truthy (optional JStr (txn b))
  then <["txn" := optional JStr (txn b)]> payload
  else payload.

(** [buildPayload()]: the two guards, then the payload.  The identifier is
    settled before the time, as the literal lists them. *)
Definition buildPayload (b : SecEventBuilder) (w : World) : World * (JsObject + Thrown) :=
  if negb (truthy (optional JStr (issuer b))) then
    (w, inr (ErrorObj "Issuer is required"))
  else if Nat.eqb (length (own_keys (events b))) 0 then
    (w, inr (ErrorObj "At least one event is required"))
  else
    let '(id, w1) := jti_or_generate b w in
    (w1, inl (assembled b id (iat_or_now b w1))).

(** [reset()] *)
Definition reset (b : SecEventBuilder) : SecEventBuilder :=
  {| options := options b;
     issuer := match defaultIssuer (options b) with
               | Some i => Some i
               | None => None
               end;
     audience := match defaultAudience (options b) with
                 | Some a => Some a
                 | None => None
                 end;
     jti := None;
     iat := None;
     txn := None;
     events := ∅;
     additionalClaims := ∅;
     claims_prototype := Object_prototype;
     this_signingKey := match signingKey (options b) with
                        | Some k => Some k
                        | None => None
                        end |}.

(** [clone()]: a new builder over the same options, then every field that
    is set copied over; the events and the custom claims are copied into
    new objects, property by property. *)
Definition clone (b : SecEventBuilder) : SecEventBuilder :=
  let fresh := new_SecEventBuilder (options b) in
  {| options := options fresh;
     issuer := match issuer b with Some i => Some i | None => issuer fresh end;
     audience := match audience b with Some a => Some a | None => audience fresh end;
     jti := match jti b with Some j => Some j | None => jti fresh end;
     iat := match iat b with Some t => Some t | None => iat fresh end;
     txn := match txn b with Some t => Some t | None => txn fresh end;
     events := spread ∅ (events b);
     additionalClaims := spread ∅ (additionalClaims b);
     claims_prototype := Object_prototype;
     this_signingKey := match this_signingKey b with
                        | Some k => Some k
                        | None => this_signingKey fresh
                        end |}.

(** The chained mutators, as data, to speak about every sequence of calls. *)
Inductive Mutator : Type :=
  | WithIssuer (v : string)
  | WithAudience (v : StringOrArray)
  | WithJti (v : string)
  | WithIat (v : JsNumber)
  | WithTxn (v : string)
  | WithEvent (event : JsObject)
  | WithEvents (evs : list JsObject)
  | WithClaim (k : string) (v : JsValue)
  | WithClaims (claims : JsObject)
  | WithSigningKey (k : SigningKey KeyMaterial).

Definition mutate (m : Mutator) (b : SecEventBuilder) : SecEventBuilder :=
  match m with
  | WithIssuer v => withIssuer v b
  | WithAudience v => withAudience v b
  | WithJti v => withJti v b
  | WithIat v => withIat v b
  | WithTxn v => withTxn v b
  | WithEvent e => withEvent e b
  | WithEvents es => withEvents es b
  | WithClaim k v => withClaim k v b
  | WithClaims c => withClaims c b
  | WithSigningKey k => withSigningKey k b
  end.

(** [b.m1(...).m2(...)...]: the calls applied left to right. *)
Definition chain (ms : list Mutator) (b : SecEventBuilder) : SecEventBuilder :=
  foldl (fun acc m => mutate m acc) b ms.

End WithWorld.

Arguments BuilderOptions : clear implicits.
Arguments SecEventBuilder : clear implicits.
Arguments Mutator : clear implicits.

End Builder.

(** ** The parser and validator ([src/parser/parser.ts]) *)

Module Parser.

(** An optional property of an options object: the object has no such
    property, or it has one, which holds a value or [undefined]. *)
Inductive Field (A : Type) : Type :=
  | Absent
  | Holding (v : option A).
Arguments Absent {A}.
Arguments Holding {A} _.

(** [o.f]: what reading the property gives, [None] being [undefined]. *)
Definition read {A : Type} (f : Field A) : option A :=
  match f with
  | Absent => None
  | Holding v => v
  end.

(** One property of [{ ...defaults, ...call }]: a property the call has
    wins, also when it holds [undefined]. *)
Definition spread_field {A : Type} (defaults call : Field A) : Field A :=
  match call with
  | Absent => defaults
  | Holding _ => call
  end.

(** [ValidationOptions] of [src/types/secevent.ts].  [currentDate] is a
    [Date], kept as its millisecond value. *)
Record ValidationOptions : Type := {
  issuer : Field StringOrArray;
  audience : Field StringOrArray;
  clockTolerance : Field JsNumber;
  currentDate : Field Z;
  requiredClaims : Field (list string);
  maxTokenAge : Field JsNumber
}.

(** [{}], which is also what spreading [undefined] contributes. *)
Definition no_options : ValidationOptions :=
  {| issuer := Absent; audience := Absent; clockTolerance := Absent;
     currentDate := Absent; requiredClaims := Absent; maxTokenAge := Absent |}.

(** [ValidationResult] of [src/types/secevent.ts] *)
Record ValidationResult : Type := {
  valid : bool;
  payload : option JsObject;
  error : option string;
  errors : option (list string)
}.

(** A parsed [URL] object, of which the parser reads [protocol] only. *)
Record URL : Type := {
  href : string;
  protocol : string
}.

(** The function returned by [createRemoteJWKSet(url)]. *)
Record RemoteJWKSet : Type := {
  jwks_url : URL
}.

(** [JWTVerifyOptions] of [jose], as far as [verify] fills it in; the
    maximum age [Seconds n] is the template string [`${n}s`]. *)
Inductive MaxTokenAge : Type :=
  | Seconds (n : JsNumber).

Record JWTVerifyOptions : Type := {
  jwt_issuer : option StringOrArray;
  jwt_audience : option StringOrArray;
  jwt_clockTolerance : option JsNumber;
  jwt_currentDate : option Z;
  jwt_maxTokenAge : option MaxTokenAge
}.

Section WithVerifier.

Context {World KeyMaterial : Type}.

(** The second argument of [jwtVerify]: key material or a remote key set. *)
Inductive KeySource : Type :=
  | DirectKey (k : KeyMaterial)
  | RemoteKeys (j : RemoteJWKSet).

(** The external collaborators: [decodeJwt] and [jwtVerify] of [jose]
    (the latter may consult and change the outside world, and either
    resolves to the verified claims or rejects), and the platform's
    [new URL(s)]. *)
Variable decodeJwt : string -> JsObject + Thrown.
Variable new_URL : string -> URL + Thrown.
Variable jwtVerify :
  World -> string -> KeySource -> JWTVerifyOptions -> World * (JsObject + Thrown).

Record ParserOptions : Type := {
  jwksUrl : option string;
  verificationKeys : option (list (SigningKey KeyMaterial));
  defaultValidationOptions : option ValidationOptions
}.

Record SecEventParser : Type := {
  options : ParserOptions;
  jwks : option RemoteJWKSet
}.

(** [new SecEventParser(options)]: a truthy [jwksUrl] is parsed, which can
    throw, and turned into a remote key set. *)
Definition new_SecEventParser (opts : ParserOptions) : SecEventParser + Thrown :=
  if truthy (optional JStr (jwksUrl opts)) then
    match new_URL (default "" (jwksUrl opts)) with
    | inl u => inl {| options := opts; jwks := Some {| jwks_url := u |} |}
    | inr e => inr e
    end
  else inl {| options := opts; jwks := None |}.

Definition createParser (opts : option ParserOptions) : SecEventParser + Thrown :=
  new_SecEventParser
    (default {| jwksUrl := None; verificationKeys := None;
                defaultValidationOptions := None |} opts).

(** [validatePayloadStructure]: [inr] is the thrown error. *)
Definition validatePayloadStructure (p : JsObject) : unit + Thrown :=
  if negb (truthy (prop p "events"))
     || negb (bool_decide (typeof (prop p "events") = TObject)) then
    inr (ErrorObj "Missing or invalid events claim")
  else if negb (truthy (prop p "iss"))
          || negb (bool_decide (typeof (prop p "iss") = TString)) then
    inr (ErrorObj "Missing or invalid issuer claim")
  else if negb (truthy (prop p "jti"))
          || negb (bool_decide (typeof (prop p "jti") = TString)) then
    inr (ErrorObj "Missing or invalid jti claim")
  else if negb (bool_decide (typeof (prop p "iat") = TNumber)) then
    inr (ErrorObj "Missing or invalid iat claim")
  else inl tt.

(** [decode(jwt)] *)
Definition decode (jwt : string) : JsObject + Thrown :=
  match decodeJwt jwt with
  | inr e => inr e
  | inl p =>
      match validatePayloadStructure p with
      | inr e => inr e
      | inl _ => inl p
      end
  end.

(** [isValidEventUri] *)
Definition isValidEventUri (uri : string) : bool :=
  match new_URL uri with
  | inl url => String.eqb (protocol url) "https:" || String.eqb (protocol url) "http:"
  | inr _ => false
  end.

(** The three passes of [validateSecEvent], each giving the errors it
    pushes. *)
Definition structure_errors (p : JsObject) : list string :=
  match validatePayloadStructure p with
  | inl _ => []
  | inr e => [message_or "Invalid payload structure" e]
  end.

(** The payload is what the verifier returned, a plain object, so
    [claim in payload] also holds for the names it inherits. *)
Definition required_claim_errors (p : JsObject) (o : ValidationOptions) : list string :=
  match read (requiredClaims o) with
  | Some claims =>
      (fun claim => "Missing required claim: " +:+ claim)
        <$> filter (fun claim => in_operator claim p = false) claims
  | None => []
  end.

Definition event_errors (p : JsObject) : list string :=
  if truthy (prop p "events") then
    (if Nat.eqb (length (Object_keys (prop p "events"))) 0
     then ["No events present in events claim"] else [])
    ++ ((fun eventUri => "Invalid event URI format: " +:+ eventUri)
          <$> filter (fun eventUri => isValidEventUri eventUri = false)
                     (Object_keys (prop p "events")))
  else [].

(** [validateSecEvent]; a top-level [sub] is looked at and let through. *)
Definition validateSecEvent (p : JsObject) (o : ValidationOptions) : list string :=
  structure_errors p ++ required_claim_errors p o ++ event_errors p.

(** *** The effects of [verify]

    A computation reads and changes the outside world through [jwtVerify],
    and either returns or throws.  Each call of the verifier is recorded
    with its arguments and its outcome. *)

Record Call : Type := {
  call_jwt : string;
  call_key : KeySource;
  call_options : JWTVerifyOptions;
  call_outcome : JsObject + Thrown
}.

Record State : Type := {
  world : World;
  calls : list Call
}.

Definition M (A : Type) : Type := State -> State * (A + Thrown).

Definition ret {A : Type} (a : A) : M A := fun st => (st, inl a).

Definition throw {A : Type} (e : Thrown) : M A := fun st => (st, inr e).

Definition bind {A B : Type} (m : M A) (f : A -> M B) : M B :=
  fun st =>
    match m st with
    | (st', inl a) => f a st'
    | (st', inr e) => (st', inr e)
    end.

(** [try { m } catch (error) { handler(error) }] *)
Definition try_catch {A : Type} (m : M A) (handler : Thrown -> M A) : M A :=
  fun st =>
    match m st with
    | (st', inl a) => (st', inl a)
    | (st', inr e) => handler e st'
    end.

(** [(await jwtVerify(jwt, key, options)).payload] *)
Definition await_jwtVerify (jwt : string) (k : KeySource) (o : JWTVerifyOptions) : M JsObject :=
  fun st =>
    let '(w, r) := jwtVerify (world st) jwt k o in
    ({| world := w;
        calls := calls st ++ [{| call_jwt := jwt; call_key := k;
                                 call_options := o; call_outcome := r |}] |}, r).

(** *** [verify] *)

(** The optional second argument of [verify]: one key or an array. *)
Inductive KeyArgument : Type :=
  | SingleKey (k : SigningKey KeyMaterial)
  | KeyArray (ks : list (SigningKey KeyMaterial)).

(** [{ ...this.options.defaultValidationOptions, ...options }], property by
    property; either operand may be [undefined], which contributes
    nothing. *)
Definition mergeOptions (defaults call : option ValidationOptions) : ValidationOptions :=
  let d := default no_options defaults in
  let c := default no_options call in
  {| issuer := spread_field (issuer d) (issuer c);
     audience := spread_field (audience d) (audience c);
     clockTolerance := spread_field (clockTolerance d) (clockTolerance c);
     currentDate := spread_field (currentDate d) (currentDate c);
     requiredClaims := spread_field (requiredClaims d) (requiredClaims c);
     maxTokenAge := spread_field (maxTokenAge d) (maxTokenAge c) |}.

(** [verificationKey ? (Array.isArray(verificationKey) ? verificationKey :
    [verificationKey]) : this.options.verificationKeys] *)
Definition candidate_keys (this : SecEventParser) (verificationKey : option KeyArgument)
  : option (list (SigningKey KeyMaterial)) :=
  match verificationKey with
  | Some (KeyArray ks) => Some ks
  | Some (SingleKey k) => Some [k]
  | None => verificationKeys (options this)
  end.

(** The [jwtOptions] object: each field is copied when truthy. *)
Definition jwtOptions_of (m : ValidationOptions) : JWTVerifyOptions :=
  {| jwt_issuer :=
       if truthy (optional of_string_or_array (read (issuer m)))
       then read (issuer m) else None;
     jwt_audience :=
       if truthy (optional of_string_or_array (read (audience m)))
       then read (audience m) else None;
     jwt_clockTolerance :=
       if truthy (optional JNum (read (clockTolerance m)))
       then read (clockTolerance m) else None;
     jwt_currentDate := read (currentDate m);
     jwt_maxTokenAge :=
       if truthy (optional JNum (read (maxTokenAge m)))
       then Seconds <$> read (maxTokenAge m) else None |}.

(** [lastError || new Error('Verification failed with all provided keys')] *)
Definition lastError_or_generic (lastError : option Thrown) : Thrown :=
  match lastError with
  | Some e =>
      if thrown_truthy e then e
      else ErrorObj "Verification failed with all provided keys"
  | None => ErrorObj "Verification failed with all provided keys"
  end.

(** The loop over the candidate keys, from the key it stands at, with the
    error remembered so far: a key that verifies ends the loop with its
    payload, a key that fails leaves its error in [lastError]; when no key
    is left the payload is still unset and the loop's sequel throws. *)
Fixpoint try_keys (jwt : string) (o : JWTVerifyOptions)
    (keys : list (SigningKey KeyMaterial)) (lastError : option Thrown) : M JsObject :=
  match keys with
  | [] => throw (lastError_or_generic lastError)
  | k :: rest =>
      try_catch (await_jwtVerify jwt (DirectKey (key k)) o)
                (fun error => try_keys jwt o rest (Some error))
  end.

(** The part of [verify] from the choice of keys to the verified claims. *)
Definition verifySignature (this : SecEventParser) (jwt : string)
    (verificationKey : option KeyArgument) (mergedOptions : ValidationOptions) : M JsObject :=
  let keys := candidate_keys this verificationKey in
  if match keys, jwks this with None, None => true | _, _ => false end then
    throw (ErrorObj "No verification key or JWKS URL provided")
  else
    let jwtOptions := jwtOptions_of mergedOptions in
    match jwks this with
    | Some j => await_jwtVerify jwt (RemoteKeys j) jwtOptions
    | None =>
        match keys with
        | Some ks => try_keys jwt jwtOptions ks None
        | None => throw (ErrorObj "No verification method available")
        end
    end.

(** What [verify] returns once the claims are verified. *)
Definition validation_result (secEventPayload : JsObject) (mergedOptions : ValidationOptions)
  : ValidationResult :=
  let validationErrors := validateSecEvent secEventPayload mergedOptions in
  if Nat.ltb 0 (length validationErrors) then
    {| valid := false; payload := None;
       error := Some (String.concat "; " validationErrors);
       errors := Some validationErrors |}
  else
    {| valid := true; payload := Some secEventPayload; error := None; errors := None |}.

(** What the outer [catch] of [verify] returns. *)
Definition caught_result (e : Thrown) : ValidationResult :=
  {| valid := false; payload := None;
     error := Some (message_or "Unknown error" e); errors := None |}.

(** [verify(jwt, verificationKey?, options?)] *)
Definition verify (this : SecEventParser) (jwt : string)
    (verificationKey : option KeyArgument) (callOptions : option ValidationOptions)
  : M ValidationResult :=
  try_catch
    (let mergedOptions :=
       mergeOptions (defaultValidationOptions (options this)) callOptions in
     bind (verifySignature this jwt verificationKey mergedOptions)
          (fun secEventPayload => ret (validation_result secEventPayload mergedOptions)))
    (fun e => ret (caught_result e)).

(** The read accessors. *)
Definition extractEvents (p : JsObject) : JsValue := prop p "events".

Definition getEventTypes (p : JsObject) : list string := Object_keys (prop p "events").

End WithVerifier.

Arguments KeyArgument : clear implicits.

Arguments KeySource : clear implicits.
Arguments ParserOptions : clear implicits.
Arguments SecEventParser : clear implicits.
Arguments Call : clear implicits.
Arguments State : clear implicits.
Arguments M : clear implicits.

End Parser.

(** ** Observations used in the statements *)

Module Observe.

(** The field [field] of the event record stored under [uri], when there
    is such a record.  [Some JUndefined] is a field that is present and
    holds [undefined]; [None] is a field that is absent. *)
Definition event_field (ev : JsObject) (uri field : string) : option JsValue :=
  match ev !! uri with
  | Some (JObj record) => record !! field
  | _ => None
  end.

(** The field names of the event record stored under [uri]. *)
Definition event_fields (ev : JsObject) (uri : string) : gset string :=
  match ev !! uri with
  | Some (JObj record) => dom record
  | _ => ∅
  end.

(** The claim [k] of the payload a computation returned, if it returned
    one and the payload has the claim. *)
Definition claim_of {W : Type} (r : W * (JsObject + Thrown)) (k : string) : option JsValue :=
  match r.2 with
  | inl p => p !! k
  | inr _ => None
  end.

(** The error a computation threw, if it threw. *)
Definition thrown_by {W A : Type} (r : W * (A + Thrown)) : option Thrown :=
  match r.2 with
  | inl _ => None
  | inr e => Some e
  end.

(** A recorded call of the verifier that rejected. *)
Definition failed {K : Type} (c : Parser.Call K) : Prop :=
  ∃ e, Parser.call_outcome c = inr e.

(** The second arguments the verifier gets when the keys [ks] are tried
    one after the other. *)
Definition direct {K : Type} (ks : list (SigningKey K)) : list (Parser.KeySource K) :=
  (fun k => Parser.DirectKey (key k)) <$> ks.

(** The value of the loop's [lastError] variable after the recorded calls,
    starting from [lastError]: the error of the latest call that rejected. *)
Definition final_error {K : Type} (lastError : option Thrown) (cs : list (Parser.Call K))
  : option Thrown :=
  foldl (fun acc c =>
           match Parser.call_outcome c with
           | inr e => Some e
           | inl _ => acc
           end) lastError cs.

(** The candidate keys an explicit key argument stands for. *)
Definition keys_of {K : Type} (arg : Parser.KeyArgument K) : list (SigningKey K) :=
  match arg with
  | Parser.SingleKey k => [k]
  | Parser.KeyArray ks => ks
  end.

(** The number of times [x] occurs in [l]. *)
Definition occurrences (x : string) (l : list string) : nat :=
  length (filter (fun y => y = x) l).

(** What one trial of the keys [ks] leaves in the record of verifier
    calls, and what it yields: the calls go through the keys in order from
    the first; either the last call is the only one that was accepted and
    its claims are the result, or every key was tried and rejected and the
    result is the remembered error (or the generic one). *)
Definition key_trial {K : Type} (jwt : string) (o : Parser.JWTVerifyOptions)
    (ks : list (SigningKey K)) (lastError : option Thrown)
    (new : list (Parser.Call K)) (r : JsObject + Thrown) : Prop :=
  Parser.call_key <$> new = direct (take (length new) ks)
  ∧ Forall (fun c => Parser.call_jwt c = jwt ∧ Parser.call_options c = o) new
  ∧ match r with
    | inl p =>
        ∃ cs c, new = cs ++ [c] ∧ Forall failed cs ∧ Parser.call_outcome c = inl p
    | inr e =>
        length new = length ks ∧ Forall failed new
        ∧ e = Parser.lastError_or_generic (final_error lastError new)
    end.

(** How [verify] obtains the claims, by the parser's configuration:
    through the remote key set whenever there is one, else by a trial of
    the candidate keys, else not at all. *)
Definition signature_run {K : Type} (this : Parser.SecEventParser K) (jwt : string)
    (vk : option (Parser.KeyArgument K)) (m : Parser.ValidationOptions)
    (new : list (Parser.Call K)) (r : JsObject + Thrown) : Prop :=
  match Parser.jwks this, Parser.candidate_keys this vk with
  | Some j, _ =>
      ∃ c, new = [c] ∧ Parser.call_key c = Parser.RemoteKeys j
           ∧ Parser.call_jwt c = jwt
           ∧ Parser.call_options c = Parser.jwtOptions_of m
           ∧ Parser.call_outcome c = r
  | None, Some ks => key_trial jwt (Parser.jwtOptions_of m) ks None new r
  | None, None =>
      new = [] ∧ r = inr (ErrorObj "No verification key or JWKS URL provided")
  end.

(** What the specification asks of an event-type key: the platform's URL
    parser accepts it as an absolute URL, and its scheme is [http] or
    [https]. *)
Definition absolute_http_uri (new_URL : string -> Parser.URL + Thrown) (uri : string) : Prop :=
  ∃ url, new_URL uri = inl url
         ∧ (Parser.protocol url = "http:" ∨ Parser.protocol url = "https:").

(** The list of required claims in force for a call of [verify]: that of
    the call's options when they have the property [requiredClaims], which
    may hold [undefined] (then none is in force); else that of the parser's
    default options. *)
Definition required_in_force (defaults call : option Parser.ValidationOptions)
  : option (list string) :=
  let of_defaults := d ← defaults; Parser.read (Parser.requiredClaims d) in
  match call with
  | Some c =>
      match Parser.requiredClaims c with
      | Parser.Holding v => v
      | Parser.Absent => of_defaults
      end
  | None => of_defaults
  end.

End Observe.

Import Observe.

(** ** Concrete collaborators and inputs

    Small stand-ins for the outside world, used to run the definitions on
    concrete inputs. *)

Module Sample.

(** The outside world is a counter: the number of collaborator calls made
    so far. *)
Definition World : Type := nat.

(** An ID generator in the style of [TimestampGenerator]: a fresh
    identifier per call. *)
Definition counting_generator (w : World) : string * World :=
  ("id-" +:+ pretty w, S w).

(** [new CustomGenerator(() => '')] *)
Definition silent_generator (w : World) : string * World := ("", S w).

(** A clock stopped at 1700000000123 ms. *)
Definition clock (_ : World) : Z := 1700000000123%Z.

Definition user : JsValue :=
  JObj (obj_literal [("format", JStr "email"); ("email", JStr "user@example.com")]).

Definition plain_options : Builder.BuilderOptions World string :=
  {| Builder.defaultIssuer := None; Builder.defaultAudience := None;
     Builder.idGenerator := None; Builder.signingKey := None |}.

Definition silent_options : Builder.BuilderOptions World string :=
  {| Builder.defaultIssuer := None; Builder.defaultAudience := None;
     Builder.idGenerator := Some silent_generator; Builder.signingKey := None |}.

Definition configured_options : Builder.BuilderOptions World string :=
  {| Builder.defaultIssuer := Some "https://idp.example.com";
     Builder.defaultAudience := Some (OneString "https://app.example.com");
     Builder.idGenerator := None;
     Builder.signingKey := Some {| kid := Some "key-1"; alg := "HS256"; key := "secret" |} |}.

(** [buildPayload] of the builder reached from [opts] by the calls [ms],
    with the sample generator and clock. *)
Definition build (opts : Builder.BuilderOptions World string)
    (ms : list (Builder.Mutator string)) : World * (JsObject + Thrown) :=
  Builder.buildPayload counting_generator clock
    (Builder.chain ms (Builder.new_SecEventBuilder opts)) 0%nat.

(** A toy URL parser: it accepts what starts with one of three schemes. *)
Definition new_URL (s : string) : Parser.URL + Thrown :=
  if String.prefix "https://" s then inl {| Parser.href := s; Parser.protocol := "https:" |}
  else if String.prefix "http://" s then inl {| Parser.href := s; Parser.protocol := "http:" |}
  else if String.prefix "mailto:" s then inl {| Parser.href := s; Parser.protocol := "mailto:" |}
  else inr (ErrorObj "Invalid URL").

Definition claims_of (iss : string) (events : JsValue) : JsObject :=
  obj_literal [("iss", JStr iss); ("jti", JStr "jti-1"); ("iat", JNum 1700000000);
               ("events", events)].

Definition good_payload : JsObject :=
  claims_of "https://idp.example.com" (JObj (Events.verification (Some "ping"))).

Definition remote_payload : JsObject :=
  claims_of "https://remote.example.com" (JObj (Events.verification (Some "ping"))).

Definition bad_uri_payload : JsObject :=
  claims_of "https://idp.example.com"
    (JObj (obj_literal [("not-a-url", JObj ∅); (Events.VERIFICATION, JObj ∅)])).

Definition array_events_payload : JsObject :=
  claims_of "https://idp.example.com" (JArr []).

(** A decoder that knows two tokens. *)
Definition decodeJwt (jwt : string) : JsObject + Thrown :=
  if String.eqb jwt "good.jwt.token" then inl good_payload
  else if String.eqb jwt "array.jwt.token" then inl array_events_payload
  else inr (ErrorObj "Invalid JWT").

(** A verifier that accepts the key ["correct"], and whatever it is asked
    to check against a remote key set; [rejection] is what it throws
    otherwise.  Each call moves the world on. *)
Definition jwtVerify_rejecting (rejection : Thrown) (accepted : JsObject)
    (w : World) (jwt : string) (k : Parser.KeySource string)
    (o : Parser.JWTVerifyOptions) : World * (JsObject + Thrown) :=
  (S w,
   match k with
   | Parser.DirectKey m => if String.eqb m "correct" then inl accepted else inr rejection
   | Parser.RemoteKeys _ => inl remote_payload
   end).

Definition jwtVerify := jwtVerify_rejecting (ErrorObj "signature verification failed") good_payload.

Definition hmac (material : string) : SigningKey string :=
  {| kid := None; alg := "HS256"; key := material |}.

Definition no_parser_options : Parser.ParserOptions string :=
  {| Parser.jwksUrl := None; Parser.verificationKeys := None;
     Parser.defaultValidationOptions := None |}.

(** [new SecEventParser()] *)
Definition plain_parser : Parser.SecEventParser string :=
  {| Parser.options := no_parser_options; Parser.jwks := None |}.

(** [new SecEventParser({ jwksUrl: 'https://idp.example.com/jwks.json' })] *)
Definition jwks_parser : Parser.SecEventParser string :=
  {| Parser.options :=
       {| Parser.jwksUrl := Some "https://idp.example.com/jwks.json";
          Parser.verificationKeys := None;
          Parser.defaultValidationOptions := None |};
     Parser.jwks :=
       Some {| Parser.jwks_url :=
                 {| Parser.href := "https://idp.example.com/jwks.json";
                    Parser.protocol := "https:" |} |} |}.

Definition start : Parser.State World string :=
  {| Parser.world := 0%nat; Parser.calls := [] |}.

End Sample.

(** ** Subject identifiers ([src/types/subject.ts]) *)

Module Subject.

(** The factory functions of [SubjectIdentifiers]. *)
Definition account (uri : string) : JsObject :=
  obj_literal [("format", JStr "account"); ("uri", JStr uri)].

Definition email (email : string) : JsObject :=
  obj_literal [("format", JStr "email"); ("email", JStr email)].

Definition issuerSubject (iss sub : string) : JsObject :=
  obj_literal [("format", JStr "iss_sub"); ("iss", JStr iss); ("sub", JStr sub)].

Definition opaque (id : string) : JsObject :=
  obj_literal [("format", JStr "opaque"); ("id", JStr id)].

Definition phoneNumber (phone_number : string) : JsObject :=
  obj_literal [("format", JStr "phone_number"); ("phone_number", JStr phone_number)].

Definition did (url : string) : JsObject :=
  obj_literal [("format", JStr "did"); ("url", JStr url)].

Definition uri (uri : string) : JsObject :=
  obj_literal [("format", JStr "uri"); ("uri", JStr uri)].

Definition aliases (identifiers : list JsValue) : JsObject :=
  obj_literal [("format", JStr "aliases"); ("identifiers", JArr identifiers)].

(** [v === s] for a string literal [s]. *)
Definition is_string (v : JsValue) (s : string) : bool :=
  match v with
  | JStr t => String.eqb t s
  | _ => false
  end.

(** The type guards. *)
Definition isAccountIdentifier (subject : JsObject) : bool :=
  is_string (prop subject "format") "account".

Definition isEmailIdentifier (subject : JsObject) : bool :=
  is_string (prop subject "format") "email".

Definition isIssuerSubjectIdentifier (subject : JsObject) : bool :=
  is_string (prop subject "format") "iss_sub".

Definition isOpaqueIdentifier (subject : JsObject) : bool :=
  is_string (prop subject "format") "opaque".

Definition isPhoneNumberIdentifier (subject : JsObject) : bool :=
  is_string (prop subject "format") "phone_number".

Definition isDidIdentifier (subject : JsObject) : bool :=
  is_string (prop subject "format") "did".

Definition isUriIdentifier (subject : JsObject) : bool :=
  is_string (prop subject "format") "uri".

Definition isAliasesIdentifier (subject : JsObject) : bool :=
  is_string (prop subject "format") "aliases".

(** The eight guards, in the order of the source. *)
Definition guards : list (JsObject -> bool) :=
  [isAccountIdentifier; isEmailIdentifier; isIssuerSubjectIdentifier;
   isOpaqueIdentifier; isPhoneNumberIdentifier; isDidIdentifier;
   isUriIdentifier; isAliasesIdentifier].

End Subject.

(** ** ID generators ([src/id/generator.ts]) *)

Module Generator.

Section WithWorld.

Context {World : Type}.

(** [Date.now()], in milliseconds. *)
Variable Date_now : World -> Z.

(** [counter++] on a JavaScript number: counts are exact up to 2^53, and
    there [2^53 + 1] rounds back to [2^53], so the counter stays. *)
Definition increment (count : N) : N :=
  if (count <? 2 ^ 53)%N then (count + 1)%N else count.

(** A [TimestampGenerator] is its counter.  The counter and the time are
    integers printed in decimal, as JavaScript prints them below 1e21. *)
Record TimestampGenerator : Type := {
  counter : N
}.

Definition new_TimestampGenerator : TimestampGenerator := {| counter := 0 |}.

(** [generate()]: [`${timestamp}-${count}`], and the counter moves on. *)
Definition TimestampGenerator_generate (this : TimestampGenerator) (w : World)
  : string * TimestampGenerator :=
  (pretty (Date_now w) +:+ "-" +:+ pretty (counter this),
   {| counter := increment (counter this) |}).

(** The identifiers of successive [generate()] calls on one generator, the
    call number [i] being made when the world is [ws !! i]. *)
Fixpoint TimestampGenerator_run (this : TimestampGenerator) (ws : list World)
  : list string :=
  match ws with
  | [] => []
  | w :: rest =>
      let '(id, next) := TimestampGenerator_generate this w in
      id :: TimestampGenerator_run next rest
  end.

(** [PrefixedGenerator.generate()]: [`${prefix}-${base.generate()}`] *)
Definition PrefixedGenerator_generate (prefix : string)
    (baseGenerator : World -> string * World) (w : World) : string * World :=
  let '(id, w') := baseGenerator w in
  (prefix +:+ "-" +:+ id, w').

(** [CustomGenerator.generate()] *)
Definition CustomGenerator_generate (generatorFn : World -> string * World)
    (w : World) : string * World :=
  generatorFn w.

End WithWorld.

(** Whether a string has a dash in it. *)
Fixpoint has_dash (s : string) : bool :=
  match s with
  | EmptyString => false
  | String a rest => if String.eqb (String a "") "-" then true else has_dash rest
  end.

End Generator.

(** ** The key manager ([src/signing/signer.ts]) *)

Module KeyManager.

(** The [Map] behind a key manager: its entries in insertion order.  A
    [Map] holds a key at most once; the operations below keep that. *)
Abbreviation KeyManager K := (list (string * SigningKey K)).

Section WithKeys.

Context {KeyMaterial : Type}.

Abbreviation KeyManager := (KeyManager KeyMaterial).

Definition new_KeyManager : KeyManager := [].

(** [Map.prototype.set]: an entry that is there keeps its place and gets
    the new value; a new entry goes to the end. *)
Fixpoint Map_set (k : string) (v : SigningKey KeyMaterial) (m : KeyManager) : KeyManager :=
  match m with
  | [] => [(k, v)]
  | (k', v') :: rest =>
      if decide (k' = k) then (k', v) :: rest else (k', v') :: Map_set k v rest
  end.

(** [Map.prototype.get] *)
Fixpoint Map_get (k : string) (m : KeyManager) : option (SigningKey KeyMaterial) :=
  match m with
  | [] => None
  | (k', v') :: rest => if decide (k' = k) then Some v' else Map_get k rest
  end.

(** [Map.prototype.delete]: whether there was an entry, and the map
    without it. *)
Fixpoint Map_delete (k : string) (m : KeyManager) : bool * KeyManager :=
  match m with
  | [] => (false, [])
  | (k', v') :: rest =>
      if decide (k' = k) then (true, rest)
      else let '(found, rest') := Map_delete k rest in (found, (k', v') :: rest')
  end.

(** [addKey(kid, key)]: stores [{ ...key, kid }]. *)
Definition addKey (id : string) (k : SigningKey KeyMaterial) (m : KeyManager) : KeyManager :=
  Map_set id {| kid := Some id; alg := alg k; key := key k |} m.

Definition getKey (id : string) (m : KeyManager) : option (SigningKey KeyMaterial) :=
  Map_get id m.

Definition getAllKeys (m : KeyManager) : list (SigningKey KeyMaterial) := m.*2.

Definition removeKey (id : string) (m : KeyManager) : bool * KeyManager :=
  Map_delete id m.

Definition clear (m : KeyManager) : KeyManager := [].

(** [getDefaultKey()]: the first value of the map, if any. *)
Definition getDefaultKey (m : KeyManager) : option (SigningKey KeyMaterial) :=
  head (getAllKeys m).

(** The calls that change a key manager, as data. *)
Inductive Change : Type :=
  | AddKey (id : string) (k : SigningKey KeyMaterial)
  | RemoveKey (id : string)
  | Clear.

Definition change (c : Change) (m : KeyManager) : KeyManager :=
  match c with
  | AddKey id k => addKey id k m
  | RemoveKey id => (removeKey id m).2
  | Clear => clear m
  end.

(** The key manager after the calls [cs], made in order on a new one. *)
Definition after (cs : list Change) : KeyManager :=
  foldl (fun m c => change c m) new_KeyManager cs.

(** What a key manager is expected to satisfy: an identifier occurs once,
    and a key stored under an identifier carries it as its [kid]. *)
Definition well_formed (m : KeyManager) : Prop :=
  NoDup m.*1 ∧ ∀ id k, (id, k) ∈ m → kid k = Some id.

End WithKeys.

Arguments Change : clear implicits.

End KeyManager.

(** ** Using a builder: chains of calls that include [reset] and [clone] *)

Module Usage.

Section WithWorld.

Context {World KeyMaterial : Type}.

(** One call on a builder; after [Clone] the chain goes on with the clone. *)
Inductive Step : Type :=
  | Call (m : Builder.Mutator KeyMaterial)
  | Reset
  | Clone.

Definition step (s : Step) (b : Builder.SecEventBuilder World KeyMaterial)
  : Builder.SecEventBuilder World KeyMaterial :=
  match s with
  | Call m => Builder.mutate m b
  | Reset => Builder.reset b
  | Clone => Builder.clone b
  end.

(** The builder reached from [new SecEventBuilder(opts)] by the calls
    [steps], made in order. *)
Definition reached (opts : Builder.BuilderOptions World KeyMaterial) (steps : list Step)
  : Builder.SecEventBuilder World KeyMaterial :=
  foldl (fun b s => step s b) (Builder.new_SecEventBuilder opts) steps.

(** Whether a mutator call writes the custom claim [k]: [withClaim] under
    that name, or [withClaims] with an object that has the property. *)
Definition writes_claim (k : string) (m : Builder.Mutator KeyMaterial) : bool :=
  match m with
  | Builder.WithClaim k' _ => String.eqb k' k
  | Builder.WithClaims claims => has_prop claims k
  | _ => false
  end.

(** A field that is unset has no configured default either. *)
Definition defaults_applied (b : Builder.SecEventBuilder World KeyMaterial) : Prop :=
  (Builder.issuer b = None → Builder.defaultIssuer (Builder.options b) = None)
  ∧ (Builder.audience b = None → Builder.defaultAudience (Builder.options b) = None)
  ∧ (Builder.this_signingKey b = None → Builder.signingKey (Builder.options b) = None).

End WithWorld.

Arguments Step : clear implicits.

End Usage.

(** ** Signing a built payload ([SecEventBuilder.sign]) *)

Module Signing.

Section WithSigner.

Context {World KeyMaterial : Type}.
Variable defaultIdGenerator : World -> string * World.
Variable Date_now : World -> Z.

(** What [sign] hands to [jose]'s [SignJWT]: the claims it is constructed
    with, the protected header, the arguments of [setIssuedAt], [setIssuer]
    and [setJti], the argument of [setAudience] when it is called, and the
    key material given to its [sign]. *)
Record SignRequest : Type := {
  claims : JsObject;
  protectedHeader : JsObject;
  issuedAt : JsValue;
  issuer : JsValue;
  jwtId : JsValue;
  audience : option JsValue;
  signing_key : KeyMaterial
}.

(** The external signer: the chain of [SignJWT] calls ending in [sign],
    which resolves to the token or rejects. *)
Variable SignJWT_sign : World -> SignRequest -> World * (string + Thrown).

(** [SignedSecEvent] of [src/types/secevent.ts] *)
Record SignedSecEvent : Type := {
  jwt : string;
  payload : JsObject
}.

(** [{ alg: key.alg, typ: 'secevent+jwt', ...(key.kid && { kid: key.kid }) }]:
    spreading [undefined] or the empty string adds nothing. *)
Definition protected_header (k : SigningKey KeyMaterial) : JsObject :=
  spread
    (obj_literal [("alg", JStr (alg k)); ("typ", JStr "secevent+jwt")])
    (if truthy (optional JStr (kid k))
     then obj_literal [("kid", optional JStr (kid k))]
     else ∅).

Definition request_for (p : JsObject) (k : SigningKey KeyMaterial) : SignRequest :=
  {| claims := p;
     protectedHeader := protected_header k;
     issuedAt := prop p "iat";
     issuer := prop p "iss";
     jwtId := prop p "jti";
     audience := if truthy (prop p "aud") then Some (prop p "aud") else None;
     signing_key := key k |}.

(** [signingKey || this.signingKey], the key [sign] uses. *)
Definition key_in_use (b : Builder.SecEventBuilder World KeyMaterial)
    (signingKey : option (SigningKey KeyMaterial)) : option (SigningKey KeyMaterial) :=
  match signingKey with
  | Some k => Some k
  | None => Builder.this_signingKey b
  end.

(** [sign(signingKey?)] *)
Definition sign (b : Builder.SecEventBuilder World KeyMaterial)
    (signingKey : option (SigningKey KeyMaterial)) (w : World)
  : World * (SignedSecEvent + Thrown) :=
  match key_in_use b signingKey with
  | None => (w, inr (ErrorObj "Signing key is required"))
  | Some k =>
      match Builder.buildPayload defaultIdGenerator Date_now b w with
      | (w1, inr e) => (w1, inr e)
      | (w1, inl p) =>
          match SignJWT_sign w1 (request_for p k) with
          | (w2, inl token) => (w2, inl {| jwt := token; payload := p |})
          | (w2, inr e) => (w2, inr e)
          end
      end
  end.

End WithSigner.

Arguments SignRequest : clear implicits.

End Signing.

(** ** The read accessors of the parser ([src/parser/parser.ts]) *)

Module Accessors.

(** [payload.events] for a payload of the declared type, whose [events] is
    a mapping; [None] for any other payload. *)
Definition events_of (p : JsObject) : option JsObject :=
  match p !! "events" with
  | Some (JObj ev) => Some ev
  | _ => None
  end.

(** [hasEvent(payload, eventType)]: [eventType in payload.events], which
    also sees the inherited names. *)
Definition hasEvent (p : JsObject) (eventType : string) : option bool :=
  in_operator eventType <$> events_of p.

(** [extractEvent(payload, eventType)]: [payload.events[eventType]].  The
    answer is [None] where it is no [JsValue]: for an inherited name that
    the mapping does not define itself. *)
Definition extractEvent (p : JsObject) (eventType : string) : option JsValue :=
  ev ← events_of p;
  match ev !! eventType with
  | Some v => Some v
  | None => if inherited eventType then None else Some JUndefined
  end.

End Accessors.

(** ** Further sample inputs *)

Module Scenario.

(** Claims without an issuer. *)
Definition no_issuer_payload : JsObject :=
  Sample.claims_of "" (JObj (Events.verification (Some "ping"))).

(** Claims whose events mapping is empty. *)
Definition empty_events_payload : JsObject :=
  Sample.claims_of "https://idp.example.com" (JObj ∅).

(** [{ requiredClaims: ['txn'] }] *)
Definition require_txn : Parser.ValidationOptions :=
  {| Parser.issuer := Parser.Absent; Parser.audience := Parser.Absent;
     Parser.clockTolerance := Parser.Absent; Parser.currentDate := Parser.Absent;
     Parser.requiredClaims := Parser.Holding (Some ["txn"]);
     Parser.maxTokenAge := Parser.Absent |}.

(** [{ requiredClaims: ['txn', 'toString'] }] *)
Definition require_txn_and_toString : Parser.ValidationOptions :=
  {| Parser.issuer := Parser.Absent; Parser.audience := Parser.Absent;
     Parser.clockTolerance := Parser.Absent; Parser.currentDate := Parser.Absent;
     Parser.requiredClaims := Parser.Holding (Some ["txn"; "toString"]);
     Parser.maxTokenAge := Parser.Absent |}.

(** [{ requiredClaims: undefined }] *)
Definition required_undefined : Parser.ValidationOptions :=
  {| Parser.issuer := Parser.Absent; Parser.audience := Parser.Absent;
     Parser.clockTolerance := Parser.Absent; Parser.currentDate := Parser.Absent;
     Parser.requiredClaims := Parser.Holding None;
     Parser.maxTokenAge := Parser.Absent |}.

(** [new SecEventParser({ verificationKeys: [wrong, correct] })] *)
Definition static_parser : Parser.SecEventParser string :=
  {| Parser.options :=
       {| Parser.jwksUrl := None;
          Parser.verificationKeys := Some [Sample.hmac "wrong"; Sample.hmac "correct"];
          Parser.defaultValidationOptions := None |};
     Parser.jwks := None |}.

(** [new SecEventParser({ defaultValidationOptions:
    { requiredClaims: ['txn', 'toString'] } })] *)
Definition strict_parser : Parser.SecEventParser string :=
  {| Parser.options :=
       {| Parser.jwksUrl := None; Parser.verificationKeys := None;
          Parser.defaultValidationOptions := Some require_txn_and_toString |};
     Parser.jwks := None |}.

(** Claims with three event keys: one that is no URL, one that is a URL
    of another scheme, and one that is an [https] URL. *)
Definition mixed_uri_payload : JsObject :=
  Sample.claims_of "https://idp.example.com"
    (JObj (obj_literal [("not-a-url", JObj ∅);
                        ("mailto:security@example.com", JObj ∅);
                        (Events.VERIFICATION, JObj ∅)])).

(** A builder with an issuer and one verification event. *)
Definition verification_builder : Builder.SecEventBuilder Sample.World string :=
  Builder.chain
    [Builder.WithIssuer "https://idp.example.com";
     Builder.WithEvent (Events.verification (Some "ping"))]
    (Builder.new_SecEventBuilder Sample.plain_options).

End Scenario.

(** ** Properties of the event factory helpers *)

Module EventsFacts.

Import Events.

Lemma event_field_singleton (uri field : string) (record : JsObject) :
  event_field {[ uri := JObj record ]} uri field = record !! field.
Proof. unfold event_field. by rewrite lookup_singleton_eq. Qed.

Lemma event_fields_singleton (uri : string) (record : JsObject) :
  event_fields {[ uri := JObj record ]} uri = dom record.
Proof. unfold event_fields. by rewrite lookup_singleton_eq. Qed.

Lemma base_record_subject (s : JsValue) (t : JsNumber) :
  obj_literal (subject_and_timestamp s t) !! "subject" = Some s.
Proof. reflexivity. Qed.

Lemma base_record_timestamp (s : JsValue) (t : JsNumber) :
  obj_literal (subject_and_timestamp s t) !! "event_timestamp" = Some (JNum t).
Proof. reflexivity. Qed.

Lemma base_record_dom (s : JsValue) (t : JsNumber) :
  dom (obj_literal (subject_and_timestamp s t)) = {[ "subject"; "event_timestamp" ]}.
Proof.
  reflexivity.
Qed.

(** The record an options-bag helper stores: the bag laid over the subject
    and the timestamp. *)
Lemma bag_record_spec (s : JsValue) (t : JsNumber) (o : option JsObject) :
  let record := spread_optional (obj_literal (subject_and_timestamp s t)) o in
  dom record = {[ "subject"; "event_timestamp" ]} ∪ from_option dom ∅ o
  ∧ (∀ bag k v, o = Some bag → bag !! k = Some v → record !! k = Some v)
  ∧ (o ≫= (.!! "subject") = None → record !! "subject" = Some s)
  ∧ (o ≫= (.!! "event_timestamp") = None →
       record !! "event_timestamp" = Some (JNum t)).
Proof.
  intros record. subst record.
  destruct o as [bag|]; cbn [spread_optional from_option mbind option_bind]; unfold spread.
  - split; [|split; [|split]].
    + rewrite dom_union_L, base_record_dom. apply (comm_L (∪)).
    + intros bag' k v Heq Hk. injection Heq as <-. by apply lookup_union_Some_l.
    + intros Hs. rewrite lookup_union_r by done. apply base_record_subject.
    + intros Ht. rewrite lookup_union_r by done. apply base_record_timestamp.
  - split; [|split; [|split]].
    + rewrite base_record_dom. by rewrite (right_id_L ∅ (∪)).
    + intros bag k v Heq. discriminate Heq.
    + intros _. apply base_record_subject.
    + intros _. apply base_record_timestamp.
Qed.

(** C9 (as amended).  Every factory helper returns a mapping with exactly
    one entry, stored under the helper's canonical event-type URI.  For
    [sessionRevoked] and [tokenClaimsChange] the record has exactly the
    fields [subject], [event_timestamp] and [reason] (resp. [claims]),
    holding the arguments; for [streamUpdated] and [verification] it has
    exactly the field [effective_time] (resp. [state]).  An omitted optional
    argument leaves its field present, holding [undefined].  For
    [credentialChange], [assuranceLevelChange] and [deviceComplianceChange]
    the record is the options bag laid over [subject] and
    [event_timestamp]: its fields are those two and the bag's, every entry
    of the bag is in the record, and the subject and the timestamp are the
    arguments unless the bag has an entry of that name. *)
Theorem helpers_build_one_entry :
  (∀ s t r, let ev := sessionRevoked s t r in
     size ev = 1%nat
     ∧ event_fields ev SESSION_REVOKED = {[ "subject"; "event_timestamp"; "reason" ]}
     ∧ event_field ev SESSION_REVOKED "subject" = Some s
     ∧ event_field ev SESSION_REVOKED "event_timestamp" = Some (JNum t)
     ∧ event_field ev SESSION_REVOKED "reason" = Some (optional JStr r))
  ∧ (∀ s t c, let ev := tokenClaimsChange s t c in
     size ev = 1%nat
     ∧ event_fields ev TOKEN_CLAIMS_CHANGE = {[ "subject"; "event_timestamp"; "claims" ]}
     ∧ event_field ev TOKEN_CLAIMS_CHANGE "subject" = Some s
     ∧ event_field ev TOKEN_CLAIMS_CHANGE "event_timestamp" = Some (JNum t)
     ∧ event_field ev TOKEN_CLAIMS_CHANGE "claims" = Some (optional JObj c))
  ∧ (∀ e, let ev := streamUpdated e in
     size ev = 1%nat
     ∧ event_fields ev STREAM_UPDATED = {[ "effective_time" ]}
     ∧ event_field ev STREAM_UPDATED "effective_time" = Some (optional JNum e))
  ∧ (∀ st, let ev := verification st in
     size ev = 1%nat
     ∧ event_fields ev VERIFICATION = {[ "state" ]}
     ∧ event_field ev VERIFICATION "state" = Some (optional JStr st))
  ∧ (∀ s t o,
       Forall (fun '(ev, uri) =>
         size ev = 1%nat
         ∧ event_fields ev uri = {[ "subject"; "event_timestamp" ]} ∪ from_option dom ∅ o
         ∧ (∀ bag k v, o = Some bag → bag !! k = Some v → event_field ev uri k = Some v)
         ∧ (o ≫= (.!! "subject") = None → event_field ev uri "subject" = Some s)
         ∧ (o ≫= (.!! "event_timestamp") = None →
              event_field ev uri "event_timestamp" = Some (JNum t)))
       [ (credentialChange s t o, CREDENTIAL_CHANGE);
         (assuranceLevelChange s t o, ASSURANCE_LEVEL_CHANGE);
         (deviceComplianceChange s t o, DEVICE_COMPLIANCE_CHANGE) ]).
Proof.
  repeat apply conj.
  - intros s t r ev. subst ev. unfold sessionRevoked.
    rewrite event_fields_singleton, !event_field_singleton, map_size_singleton.
    repeat split; reflexivity.
  - intros s t c ev. subst ev. unfold tokenClaimsChange.
    rewrite event_fields_singleton, !event_field_singleton, map_size_singleton.
    repeat split; reflexivity.
  - intros e ev. subst ev. unfold streamUpdated.
    rewrite event_fields_singleton, !event_field_singleton, map_size_singleton.
    repeat split; reflexivity.
  - intros st ev. subst ev. unfold verification.
    rewrite event_fields_singleton, !event_field_singleton, map_size_singleton.
    repeat split; reflexivity.
  - intros s t o.
    destruct (bag_record_spec s t o) as (Hdom & Hbag & Hs & Ht).
    unfold credentialChange, assuranceLevelChange, deviceComplianceChange.
    repeat constructor;
      rewrite ?event_fields_singleton, ?map_size_singleton; try done;
      try (intros; rewrite event_field_singleton; eauto).
Qed.

(** The helpers run on a concrete call: a credential change with no
    options keeps the subject it was given. *)
Lemma helpers_build_one_entry_witness :
  event_field (credentialChange Sample.user 1700000000 None) CREDENTIAL_CHANGE "subject"
  = Some Sample.user.
Proof.
  destruct helpers_build_one_entry as (_ & _ & _ & _ & H).
  specialize (H Sample.user 1700000000%Q None).
  apply Forall_cons in H as [(_ & _ & _ & Hs & _) _].
  apply Hs. reflexivity.
Defined.

(** C9 (as stated) fails: with the optional argument omitted, the field is
    still a field of the record, holding [undefined]; and an options bag
    that carries [event_timestamp] replaces the timestamp argument. *)
Lemma omitted_field_is_present :
  event_field (verification None) VERIFICATION "state" = Some JUndefined
  ∧ "state" ∈ event_fields (verification None) VERIFICATION
  ∧ event_field (sessionRevoked Sample.user 1700000000 None) SESSION_REVOKED "reason"
    = Some JUndefined
  ∧ event_field (streamUpdated None) STREAM_UPDATED "effective_time" = Some JUndefined
  ∧ event_field
      (credentialChange Sample.user 1700000000
         (Some {[ "event_timestamp" := JNum 5 ]}))
      CREDENTIAL_CHANGE "event_timestamp" = Some (JNum 5).
Proof.
  repeat split; reflexivity.
Qed.

End EventsFacts.

(** ** Properties of the builder *)

Module BuilderFacts.

Import Builder.

Section WithWorld.

Context {World KeyMaterial : Type}.
Variable defaultIdGenerator : World -> string * World.
Variable Date_now : World -> Z.

Abbreviation SecEventBuilder := (SecEventBuilder World KeyMaterial).
Abbreviation buildPayload := (buildPayload defaultIdGenerator Date_now).

Lemma withEvents_options (evs : list JsObject) (b : SecEventBuilder) :
  options (withEvents evs b) = options b.
Proof.
  unfold withEvents. revert b.
  induction evs as [|e evs IH]; intros b; simpl; [done|].
  by rewrite IH.
Qed.

Lemma withClaim_options (k : string) (v : JsValue) (b : SecEventBuilder) :
  options (withClaim k v b) = options b.
Proof. unfold withClaim. by repeat case_match. Qed.

Lemma mutate_options (m : Mutator KeyMaterial) (b : SecEventBuilder) :
  options (mutate m b) = options b.
Proof. destruct m; simpl; auto using withEvents_options, withClaim_options. Qed.

(** No chain of mutators touches the options the builder was constructed
    with. *)
Lemma chain_options (ms : list (Mutator KeyMaterial)) (b : SecEventBuilder) :
  options (chain ms b) = options b.
Proof.
  unfold chain. revert b.
  induction ms as [|m ms IH]; intros b; simpl; [done|].
  by rewrite IH, mutate_options.
Qed.

(** C8.  Whatever mutators were called on a builder, [reset()] puts the
    issuer, the audience and the signing key back to the values of the
    options the builder was constructed with (unset where the option is
    not configured), unsets [jti], [iat] and [txn], and empties the events
    and the custom claims. *)
Theorem reset_restores_configuration
    (b : SecEventBuilder) (ms : list (Mutator KeyMaterial)) :
  let b' := reset (chain ms b) in
  issuer b' = defaultIssuer (options b)
  ∧ audience b' = defaultAudience (options b)
  ∧ this_signingKey b' = signingKey (options b)
  ∧ jti b' = None
  ∧ iat b' = None
  ∧ txn b' = None
  ∧ events b' = ∅
  ∧ additionalClaims b' = ∅
  ∧ options b' = options b.
Proof.
  simpl. rewrite chain_options.
  repeat split; by repeat case_match.
Qed.

(** The scenario of a configured default issuer: after [withIssuer] and
    more, [reset()] is back at the default. *)
Example reset_returns_to_default :
  issuer
    (reset
       (chain [WithIssuer "https://other.example.com"; WithTxn "txn-1";
               WithEvent (Events.verification None)]
          (new_SecEventBuilder Sample.configured_options)))
  = Some "https://idp.example.com".
Proof. reflexivity. Qed.

(** In particular a reset builder is the builder as constructed. *)
Lemma reset_is_fresh (opts : BuilderOptions World KeyMaterial)
    (ms : list (Mutator KeyMaterial)) :
  reset (chain ms (new_SecEventBuilder opts)) = new_SecEventBuilder opts.
Proof.
  unfold reset. rewrite chain_options. unfold new_SecEventBuilder; simpl.
  f_equal; by repeat case_match.
Qed.

(** *** [buildPayload] *)

Lemma no_events_iff (ev : JsObject) :
  Nat.eqb (length (own_keys ev)) 0 = true ↔ ev = ∅.
Proof.
  unfold own_keys. rewrite length_fmap, Nat.eqb_eq.
  split.
  - intros H. apply map_to_list_empty_iff. by apply nil_length_inv.
  - intros ->. by rewrite map_to_list_empty.
Qed.

Lemma falsy_string_iff (o : option string) :
  truthy (optional JStr o) = false ↔ o = None ∨ o = Some "".
Proof.
  destruct o as [s|]; simpl.
  - rewrite negb_false_iff, String.eqb_eq. split.
    + intros ->. by right.
    + intros [H|H]; congruence.
  - split; [by left|done].
Qed.

Lemma truthy_string (s : string) : s ≠ "" → truthy (JStr s) = true.
Proof. intros H. simpl. apply negb_true_iff. by apply String.eqb_neq. Qed.

Lemma truthy_number_iff (n : JsNumber) : truthy (JNum n) = true ↔ ¬ zero_or_NaN n.
Proof.
  destruct n as [q| |negative]; simpl.
  - rewrite negb_true_iff, <- not_true_iff_false, Qeq_bool_iff. done.
  - split; [done|]. intros H. by destruct H.
  - split; [by intros _ ?|done].
Qed.

Lemma falsy_number (n : JsNumber) : truthy (JNum n) = false → zero_or_NaN n.
Proof.
  destruct n as [q| |negative]; simpl; [|done..].
  rewrite negb_false_iff. apply Qeq_bool_iff.
Qed.

Lemma is_integer_inject_Z (z : Z) : is_integer (inject_Z z) = true.
Proof. unfold is_integer. rewrite Qfloor_Z. apply Qeq_bool_iff. reflexivity. Qed.

Lemma buildPayload_success (b : SecEventBuilder) (w : World) (i : string) :
  issuer b = Some i → i ≠ "" → events b ≠ ∅ →
  buildPayload b w
  = ((jti_or_generate defaultIdGenerator b w).2,
     inl (assembled b (jti_or_generate defaultIdGenerator b w).1
            (iat_or_now Date_now b (jti_or_generate defaultIdGenerator b w).2))).
Proof.
  intros Hi Hne Hev. unfold Builder.buildPayload.
  assert (truthy (optional JStr (issuer b)) = true) as ->.
  { rewrite Hi. by apply truthy_string. }
  cbn [negb].
  destruct (Nat.eqb (length (own_keys (events b))) 0) eqn:E.
  { by apply no_events_iff in E. }
  by destruct (jti_or_generate defaultIdGenerator b w) as [id w1].
Qed.

(** A field of the literal that is neither [aud] nor [txn] and that no
    custom claim shadows keeps its value. *)
Lemma assembled_lookup (b : SecEventBuilder) (id : string) (t : JsNumber) (k : string) :
  k ≠ "aud" → k ≠ "txn" → additionalClaims b !! k = None →
  assembled b id t !! k
  = obj_literal [("iss", optional JStr (issuer b)); ("jti", JStr id);
                 ("iat", JNum t); ("events", JObj (events b))] !! k.
Proof.
  intros Haud Htxn Hk. unfold assembled, spread.
  repeat case_match; rewrite ?lookup_insert_ne by done; by rewrite lookup_union_r.
Qed.

(** A custom claim that shadows a field of the literal replaces it. *)
Lemma assembled_lookup_shadowed (b : SecEventBuilder) (id : string) (t : JsNumber)
    (k : string) (v : JsValue) :
  k ≠ "aud" → k ≠ "txn" → additionalClaims b !! k = Some v →
  assembled b id t !! k = Some v.
Proof.
  intros Haud Htxn Hk. unfold assembled, spread.
  repeat case_match; rewrite ?lookup_insert_ne by done; by apply lookup_union_Some_l.
Qed.

(** [aud] and [txn], assigned after the spread, do win over custom claims
    of the same name. *)
Lemma assembled_aud_txn (b : SecEventBuilder) (id : string) (t : JsNumber) :
  (truthy (optional of_string_or_array (audience b)) = true →
     assembled b id t !! "aud" = Some (optional of_string_or_array (audience b)))
  ∧ (truthy (optional JStr (txn b)) = true →
     assembled b id t !! "txn" = Some (optional JStr (txn b))).
Proof.
  unfold assembled. split; intros ->.
  - case_match; [by rewrite lookup_insert_ne, lookup_insert_eq|by rewrite lookup_insert_eq].
  - by rewrite lookup_insert_eq.
Qed.

(** C5 (as amended).  [buildPayload] fails with the missing-issuer error
    exactly when the issuer is unset or the empty string.  With a
    non-empty issuer it fails with the no-events error when the events
    mapping is empty, and otherwise returns a payload in which, for each of
    [jti], [iat] and [events] that no custom claim of the same name
    shadows: [jti] is the explicitly set value when that is a non-empty
    string, else the next value of the configured (or default) ID generator,
    which is called in that case only; [iat] is the explicitly set value
    when that is neither zero nor [NaN], else the current time in whole
    seconds; [events] is the accumulated mapping.  So [jti] is non-empty whenever the
    generator's value is, and [iat] is an integer whenever the explicitly
    set value, if any, is one. *)
Theorem buildPayload_outcome (b : SecEventBuilder) (w : World) :
  let gen := default defaultIdGenerator (idGenerator (options b)) in
  let custom := additionalClaims b in
  (thrown_by (buildPayload b w) = Some (ErrorObj "Issuer is required")
     ↔ issuer b = None ∨ issuer b = Some "")
  ∧ (∀ i, issuer b = Some i → i ≠ "" → events b = ∅ →
       buildPayload b w = (w, inr (ErrorObj "At least one event is required")))
  ∧ (∀ i, issuer b = Some i → i ≠ "" → events b ≠ ∅ →
       ∃ w' p, buildPayload b w = (w', inl p)
         ∧ (∀ j, jti b = Some j → j ≠ "" →
              w' = w ∧ (custom !! "jti" = None → p !! "jti" = Some (JStr j)))
         ∧ (jti b = None ∨ jti b = Some "" →
              w' = (gen w).2
              ∧ (custom !! "jti" = None → p !! "jti" = Some (JStr (gen w).1)))
         ∧ (∀ t, iat b = Some t → ¬ zero_or_NaN t → custom !! "iat" = None →
              p !! "iat" = Some (JNum t))
         ∧ (iat b = None ∨ (∃ t, iat b = Some t ∧ zero_or_NaN t) →
              custom !! "iat" = None →
              p !! "iat" = Some (JNum (inject_Z (Date_now w' / 1000))))
         ∧ (custom !! "events" = None → p !! "events" = Some (JObj (events b)))
         ∧ (custom !! "jti" = None → (gen w).1 ≠ "" →
              ∃ id, p !! "jti" = Some (JStr id) ∧ id ≠ "")
         ∧ (custom !! "iat" = None → (∀ t, iat b = Some t → is_integer t = true) →
              ∃ t, p !! "iat" = Some (JNum t) ∧ is_integer t = true)).
Proof.
  intros gen custom. split; [|split].
  - rewrite <- falsy_string_iff. unfold Builder.buildPayload, thrown_by.
    destruct (truthy (optional JStr (issuer b))); cbn [negb].
    + split; [|done].
      destruct (Nat.eqb (length (own_keys (events b))) 0); [done|].
      by destruct (jti_or_generate defaultIdGenerator b w).
    + done.
  - intros i Hi Hne Hev. unfold Builder.buildPayload.
    rewrite Hi. cbn [optional from_option]. rewrite truthy_string by done.
    cbn [negb]. by rewrite Hev.
  - intros i Hi Hne Hev. eexists _, _.
    split; [by eapply buildPayload_success|].
    set (idw := jti_or_generate defaultIdGenerator b w).
    assert (Hset : ∀ j, jti b = Some j → j ≠ "" → idw = (j, w)).
    { intros j Hj Hjne. unfold idw, jti_or_generate.
      by rewrite Hj, truthy_string. }
    assert (Hgen : jti b = None ∨ jti b = Some "" → idw = gen w).
    { intros [Hj|Hj]; unfold idw, jti_or_generate; by rewrite Hj. }
    assert (Hnow : iat b = None ∨ (∃ t, iat b = Some t ∧ zero_or_NaN t) →
                   iat_or_now Date_now b idw.2 = Finite (inject_Z (Date_now idw.2 / 1000))).
    { intros [Ht|(t & Ht & Hz)]; unfold iat_or_now; rewrite Ht; [done|].
      destruct (truthy (JNum t)) eqn:E; [|done].
      by apply truthy_number_iff in E. }
    assert (Hiat : ∀ t, iat b = Some t → ¬ zero_or_NaN t → iat_or_now Date_now b idw.2 = t).
    { intros t Ht Hnz. unfold iat_or_now. rewrite Ht.
      by apply truthy_number_iff in Hnz as ->. }
    split; [|split; [|split; [|split; [|split; [|split]]]]].
    + intros j Hj Hjne. rewrite (Hset j) by done. split; [done|].
      intros Hc. by rewrite assembled_lookup.
    + intros Hj. rewrite Hgen by done. split; [done|].
      intros Hc. by rewrite assembled_lookup.
    + intros t Ht Hnz Hc. rewrite assembled_lookup by done. by rewrite (Hiat t).
    + intros Ht Hc. rewrite assembled_lookup by done. by rewrite Hnow.
    + intros Hc. by rewrite assembled_lookup.
    + intros Hc Hg. exists idw.1. split; [by rewrite assembled_lookup|].
      destruct (jti b) as [j|] eqn:Hj.
      * destruct (decide (j = "")) as [->|Hjne].
        -- by rewrite Hgen by auto.
        -- by rewrite (Hset j).
      * by rewrite Hgen by auto.
    + intros Hc Hint. eexists. split; [by rewrite assembled_lookup|].
      destruct (iat b) as [t|] eqn:Ht.
      * destruct (truthy (JNum t)) eqn:E.
        -- apply truthy_number_iff in E. rewrite (Hiat t) by done. auto.
        -- rewrite Hnow; [apply is_integer_inject_Z|].
           right. exists t. split; [done|]. by apply falsy_number.
      * rewrite Hnow by auto. apply is_integer_inject_Z.
Qed.

End WithWorld.

(** The theorem at work on a concrete chain: an explicitly set, non-empty
    [jti] is the payload's. *)
Lemma buildPayload_outcome_witness :
  claim_of
    (Sample.build Sample.plain_options
       [WithIssuer "https://idp.example.com";
        WithEvent (Events.verification (Some "ping"));
        WithJti "jti-1"])
    "jti"
  = Some (JStr "jti-1").
Proof.
  unfold Sample.build.
  match goal with
  | |- claim_of (Builder.buildPayload ?g ?c ?b ?w) _ = _ =>
      destruct (buildPayload_outcome g c b w) as (_ & _ & H)
  end.
  destruct (H "https://idp.example.com") as (w' & p & -> & Hjti & _).
  - reflexivity.
  - discriminate.
  - intros E. apply (f_equal (fun m => m !! Events.VERIFICATION)) in E.
    vm_compute in E. discriminate E.
  - unfold claim_of; simpl. apply (Hjti "jti-1"); [reflexivity|discriminate|reflexivity].
Defined.

(** C5 (as stated) fails on falsy values and on what the generator or the
    caller may supply: an issuer set to the empty string counts as missing;
    an [iat] set to [0] or to [NaN] is replaced by the current time; an
    [iat] set to [3/2] is kept although it is no integer; a [jti] set to
    the empty string is replaced by a generated one; and a configured
    generator that produces the empty string gives an empty [jti]. *)
Lemma buildPayload_falsy_values :
  let ev := WithEvent (Events.verification None) in
  let iss := WithIssuer "https://idp.example.com" in
  (issuer (chain [WithIssuer ""; ev] (new_SecEventBuilder Sample.plain_options)) = Some ""
   ∧ thrown_by (Sample.build Sample.plain_options [WithIssuer ""; ev])
     = Some (ErrorObj "Issuer is required"))
  ∧ claim_of (Sample.build Sample.plain_options [iss; ev; WithIat 0]) "iat"
    = Some (JNum 1700000000)
  ∧ claim_of (Sample.build Sample.plain_options [iss; ev; WithIat NaN]) "iat"
    = Some (JNum 1700000000)
  ∧ (claim_of (Sample.build Sample.plain_options [iss; ev; WithIat (3 # 2)]) "iat"
     = Some (JNum (3 # 2))
     ∧ is_integer (3 # 2) = false)
  ∧ claim_of (Sample.build Sample.plain_options [iss; ev; WithJti ""]) "jti"
    = Some (JStr "id-0")
  ∧ claim_of (Sample.build Sample.silent_options [iss; ev]) "jti" = Some (JStr "").
Proof. vm_compute. repeat split; reflexivity. Qed.

(** C1 (the code at the failing input).  A custom claim named [iss],
    [jti], [iat] or [events] replaces the builder's own value in the
    payload, while [aud] and [txn], assigned after the custom claims are
    spread, keep the builder's values. *)
Theorem custom_claim_replaces_reserved_field :
  let calls :=
    [WithIssuer "https://idp.example.com";
     WithAudience (OneString "https://app.example.com");
     WithTxn "txn-1"; WithJti "jti-1"; WithIat 1700000000;
     WithEvent (Events.verification None);
     WithClaim "iss" (JStr "https://attacker.example");
     WithClaims (obj_literal [("jti", JStr "forged"); ("iat", JNum 1);
                              ("events", JNull); ("aud", JStr "anyone");
                              ("txn", JStr "other")])] in
  let r := Sample.build Sample.plain_options calls in
  claim_of r "iss" = Some (JStr "https://attacker.example")
  ∧ claim_of r "jti" = Some (JStr "forged")
  ∧ claim_of r "iat" = Some (JNum 1)
  ∧ claim_of r "events" = Some JNull
  ∧ claim_of r "aud" = Some (JStr "https://app.example.com")
  ∧ claim_of r "txn" = Some (JStr "txn-1").
Proof. vm_compute. repeat split; reflexivity. Qed.

End BuilderFacts.

(** ** Properties of the parser and validator *)

Module ParserFacts.

Import Parser.

Section WithVerifier.

Context {World KeyMaterial : Type}.
Variable new_URL : string -> URL + Thrown.
Variable jwtVerify :
  World -> string -> KeySource KeyMaterial -> JWTVerifyOptions
  -> World * (JsObject + Thrown).

Abbreviation SecEventParser := (SecEventParser KeyMaterial).
Abbreviation State := (State World KeyMaterial).
Abbreviation Call := (Call KeyMaterial).
Abbreviation try_keys := (try_keys jwtVerify).
Abbreviation verifySignature := (verifySignature jwtVerify).
Abbreviation verify := (verify new_URL jwtVerify).
Abbreviation validateSecEvent := (validateSecEvent new_URL).
Abbreviation validation_result := (validation_result new_URL).

Lemma prop_lookup (p : JsObject) (k : string) (v : JsValue) :
  v ≠ JUndefined → (prop p k = v ↔ p !! k = Some v).
Proof.
  intros Hv. unfold prop. destruct (p !! k) as [x|]; cbn.
  - split; congruence.
  - split; [congruence|done].
Qed.

(** *** The record of verifier calls *)

Lemma final_error_snoc (lastError : option Thrown) (cs : list Call) (c : Call) :
  final_error lastError (cs ++ [c])
  = match call_outcome c with
    | inr e => Some e
    | inl _ => final_error lastError cs
    end.
Proof. unfold final_error. by rewrite foldl_app. Qed.

Lemma last_snoc_inv {A : Type} (l cs : list A) (c x : A) :
  l = cs ++ [c] → last l = Some x → x = c.
Proof. intros -> H. rewrite last_snoc in H. congruence. Qed.

Lemma try_keys_run (jwt : string) (o : JWTVerifyOptions)
    (ks : list (SigningKey KeyMaterial)) (lastError : option Thrown) (st : State) :
  ∃ w' new r,
    try_keys jwt o ks lastError st = ({| world := w'; calls := calls st ++ new |}, r)
    ∧ key_trial jwt o ks lastError new r.
Proof.
  revert lastError st.
  induction ks as [|k ks IH]; intros lastError st.
  - exists (world st), [], (inr (lastError_or_generic lastError)).
    split.
    + cbn. rewrite app_nil_r. by destruct st.
    + by repeat split.
  - cbn [Parser.try_keys]. unfold try_catch, await_jwtVerify.
    destruct (jwtVerify (world st) jwt (DirectKey (key k)) o) as [w1 [p|e]] eqn:E.
    + eexists w1, [_], (inl p). split; [reflexivity|].
      repeat split.
      * by repeat constructor.
      * by exists [], {| call_jwt := jwt; call_key := DirectKey (key k);
                        call_options := o; call_outcome := inl p |}.
    + match goal with
      | |- context [Parser.try_keys _ _ _ _ _ ?s] =>
          destruct (IH (Some e) s) as (w' & new & r & Hrun & Hkeys & Hargs & Hr)
      end.
      rewrite Hrun. cbn [calls].
      set (c := {| call_jwt := jwt; call_key := DirectKey (key k);
                   call_options := o; call_outcome := inr e |}) in *.
      exists w', (c :: new), r. split; [by rewrite <- app_assoc|].
      assert (Hc : failed c) by (by exists e).
      repeat split.
      * cbn. by rewrite Hkeys.
      * by constructor.
      * destruct r as [p|e'].
        -- destruct Hr as (cs & c' & -> & Hcs & Hp).
           exists (c :: cs), c'. split; [done|]. split; [by constructor|done].
        -- destruct Hr as (Hlen & Hfail & ->).
           split; [by cbn; rewrite Hlen|]. split; [by constructor|done].
Qed.

Lemma final_error_failed (lastError : option Thrown) (cs : list Call) (c : Call) :
  failed c → ∃ e, call_outcome c = inr e ∧ final_error lastError (cs ++ [c]) = Some e.
Proof. intros [e He]. exists e. by rewrite final_error_snoc, He. Qed.

(** *** The shape of a run of [verify] *)

Lemma verify_unfold (this : SecEventParser) (jwt : string)
    (vk : option (KeyArgument KeyMaterial)) (co : option ValidationOptions) (st : State) :
  let m := mergeOptions (defaultValidationOptions (options this)) co in
  verify this jwt vk co st
  = match verifySignature this jwt vk m st with
    | (st', inl p) => (st', inl (validation_result p m))
    | (st', inr e) => (st', inl (caught_result e))
    end.
Proof.
  intros m. unfold Parser.verify, try_catch, bind, ret. fold m.
  by destruct (verifySignature this jwt vk m st) as [st' [p|e]].
Qed.

Lemma verifySignature_run (this : SecEventParser) (jwt : string)
    (vk : option (KeyArgument KeyMaterial)) (m : ValidationOptions) (st : State) :
  ∃ w' new r,
    verifySignature this jwt vk m st = ({| world := w'; calls := calls st ++ new |}, r)
    ∧ signature_run this jwt vk m new r.
Proof.
  unfold Parser.verifySignature, signature_run.
  destruct (jwks this) as [j|], (candidate_keys this vk) as [ks|].
  - unfold await_jwtVerify.
    destruct (jwtVerify (world st) jwt (RemoteKeys j) (jwtOptions_of m)) as [w1 r].
    eexists w1, [_], r. split; [reflexivity|]. by eexists.
  - unfold await_jwtVerify.
    destruct (jwtVerify (world st) jwt (RemoteKeys j) (jwtOptions_of m)) as [w1 r].
    eexists w1, [_], r. split; [reflexivity|]. by eexists.
  - apply try_keys_run.
  - exists (world st), [], (inr (ErrorObj "No verification key or JWKS URL provided")).
    split; [|done]. unfold throw. rewrite app_nil_r. by destruct st.
Qed.

(** A run of [verify]: it returns; the record grows by the calls of the
    signature phase; the result is the validation result of the verified
    claims, or what the outer [catch] makes of the thrown error. *)
Lemma verify_run (this : SecEventParser) (jwt : string)
    (vk : option (KeyArgument KeyMaterial)) (co : option ValidationOptions) (st : State) :
  let m := mergeOptions (defaultValidationOptions (options this)) co in
  ∃ w' new r,
    verifySignature this jwt vk m st = ({| world := w'; calls := calls st ++ new |}, r)
    ∧ signature_run this jwt vk m new r
    ∧ verify this jwt vk co st
      = ({| world := w'; calls := calls st ++ new |},
         inl match r with
             | inl p => validation_result p m
             | inr e => caught_result e
             end).
Proof.
  intros m.
  destruct (verifySignature_run this jwt vk m st) as (w' & new & r & Hrun & Hsig).
  exists w', new, r. repeat split; [done..|].
  rewrite verify_unfold. fold m. rewrite Hrun. by destruct r.
Qed.

(** What the record says about the outcome of the signature phase: claims
    are obtained exactly when the last recorded call was accepted; and when
    the last recorded call rejected, its error is what the phase throws,
    unless the candidate-key loop finds it falsy and substitutes the
    generic error. *)
Lemma signature_run_last (this : SecEventParser) (jwt : string)
    (vk : option (KeyArgument KeyMaterial)) (m : ValidationOptions)
    (new : list Call) (r : JsObject + Thrown) :
  signature_run this jwt vk m new r →
  match r with
  | inl p => ∃ c, last new = Some c ∧ call_outcome c = inl p
  | inr e =>
      ∀ c, last new = Some c →
        ∃ e0, call_outcome c = inr e0
          ∧ (e = e0
             ∨ (thrown_truthy e0 = false
                ∧ e = ErrorObj "Verification failed with all provided keys"))
  end.
Proof.
  unfold signature_run.
  destruct (jwks this) as [j|]; [|destruct (candidate_keys this vk) as [ks|]].
  - intros (c & -> & _ & _ & _ & <-). cbn.
    destruct (call_outcome c) as [p|e] eqn:E.
    + by exists c.
    + intros c' [= <-]. exists e. auto.
  - intros (_ & _ & Hr). destruct r as [p|e].
    + destruct Hr as (cs & c & -> & _ & Hp). exists c. by rewrite last_snoc.
    + destruct Hr as (_ & Hfail & ->). intros c Hlast.
      destruct new as [|c0 new] using rev_ind; [done|]. clear IHnew.
      rewrite last_snoc in Hlast. injection Hlast as ->.
      apply Forall_app in Hfail as [_ Hc]. apply Forall_inv in Hc.
      destruct (final_error_failed None new c Hc) as (e0 & He0 & ->).
      exists e0. split; [done|]. cbn. destruct (thrown_truthy e0); auto.
  - intros [-> ->]. intros c [=].
Qed.

(** What the signature phase throws, by the last recorded call: on the
    remote key set path what the verifier threw, on the candidate-key path
    what the loop's sequel makes of it. *)
Lemma signature_run_thrown (this : SecEventParser) (jwt : string)
    (vk : option (KeyArgument KeyMaterial)) (m : ValidationOptions)
    (new : list Call) (e : Thrown) :
  signature_run this jwt vk m new (inr e) →
  ∀ c, last new = Some c →
    ∃ e0, call_outcome c = inr e0
      ∧ e = match call_key c with
            | RemoteKeys _ => e0
            | DirectKey _ => lastError_or_generic (Some e0)
            end.
Proof.
  unfold signature_run.
  destruct (jwks this) as [j|]; [|destruct (candidate_keys this vk) as [ks|]].
  - intros (c & -> & Hk & _ & _ & Ho) c' [= <-]. exists e. by rewrite Hk.
  - intros (Hkeys & _ & _ & Hfail & ->) c Hlast.
    destruct new as [|c0 new] using rev_ind; [done|]. clear IHnew.
    rewrite last_snoc in Hlast. injection Hlast as ->.
    pose proof Hfail as Hc. apply Forall_app in Hc as [_ Hc]. apply Forall_inv in Hc.
    destruct (final_error_failed None new c Hc) as (e0 & He0 & ->).
    exists e0. split; [done|].
    apply (f_equal last) in Hkeys. unfold direct in Hkeys.
    rewrite !fmap_last, last_snoc in Hkeys. cbn in Hkeys.
    destruct (last (take _ ks)) as [k|]; [|done].
    injection Hkeys as ->. done.
  - intros [-> _] c [=].
Qed.

(** Every error [validateSecEvent] pushes is a non-empty string. *)
Lemma validateSecEvent_nonempty (p : JsObject) (m : ValidationOptions) (e : string) :
  e ∈ validateSecEvent p m → e ≠ "".
Proof.
  unfold Parser.validateSecEvent. rewrite !elem_of_app. intros [H|[H|H]].
  - unfold structure_errors, validatePayloadStructure in H.
    repeat case_match; simplify_eq; cbn in H;
      try (by apply elem_of_nil in H);
      apply list_elem_of_singleton in H; by subst.
  - unfold required_claim_errors in H. destruct (read (requiredClaims m)); [|by apply elem_of_nil in H].
    apply list_elem_of_fmap in H as (c & -> & _). done.
  - unfold event_errors in H. destruct (truthy (prop p "events")); [|by apply elem_of_nil in H].
    apply elem_of_app in H as [H|H].
    + case_match; [|by apply elem_of_nil in H].
      apply list_elem_of_singleton in H. by subst.
    + apply list_elem_of_fmap in H as (c & -> & _). done.
Qed.

Lemma concat_nonempty (sep : string) (l : list string) :
  l ≠ [] → (∀ e, e ∈ l → e ≠ "") → String.concat sep l ≠ "".
Proof.
  destruct l as [|x l]; [done|]. intros _ H.
  assert (Hx : x ≠ "") by (apply H; left).
  destruct x as [|a x]; [done|].
  cbn. by destruct l.
Qed.

Lemma validation_result_cases (p : JsObject) (m : ValidationOptions) :
  (validateSecEvent p m = []
   ∧ validation_result p m
     = {| valid := true; payload := Some p; error := None; errors := None |})
  ∨ (validateSecEvent p m ≠ []
     ∧ validation_result p m
       = {| valid := false; payload := None;
            error := Some (String.concat "; " (validateSecEvent p m));
            errors := Some (validateSecEvent p m) |}).
Proof.
  unfold Parser.validation_result.
  destruct (validateSecEvent p m) as [|x l]; [by left|by right].
Qed.

(** C4 (as amended).  On a parser with no remote key set, the candidate
    keys given to [verify] are tried strictly in the given order, starting
    from the first, each at most once.  The first key the verifier accepts
    ends the trial and its claims are the ones validated; no later key is
    tried.  If the verifier rejects every candidate, [verify] fails with
    the error of the last call when that is an [Error] object (or any other
    truthy value), and with the generic failure when it is a falsy value;
    with no candidate at all it fails with the generic failure, and the
    verifier is not called. *)
Theorem candidate_keys_tried_in_order (this : SecEventParser) (jwt : string)
    (arg : KeyArgument KeyMaterial) (co : option ValidationOptions) (st : State) :
  jwks this = None →
  let ks := keys_of arg in
  let m := mergeOptions (defaultValidationOptions (options this)) co in
  let generic := ErrorObj "Verification failed with all provided keys" in
  ∃ w' new r,
    verify this jwt (Some arg) co st
    = ({| world := w'; calls := calls st ++ new |}, inl r)
    ∧ call_key <$> new = direct (take (length new) ks)
    ∧ ((∃ cs c p, new = cs ++ [c] ∧ Forall failed cs ∧ call_outcome c = inl p
                  ∧ r = validation_result p m)
       ∨ (∃ cs c e, new = cs ++ [c] ∧ length new = length ks ∧ Forall failed new
                    ∧ call_outcome c = inr e
                    ∧ r = caught_result (if thrown_truthy e then e else generic))
       ∨ (ks = [] ∧ new = [] ∧ r = caught_result generic)).
Proof.
  intros Hjwks ks m generic.
  destruct (verify_run this jwt (Some arg) co st) as (w' & new & r & _ & Hsig & Hrun).
  fold m in Hsig, Hrun.
  exists w', new, (match r with inl p => validation_result p m | inr e => caught_result e end).
  split; [done|].
  unfold signature_run in Hsig. rewrite Hjwks in Hsig.
  assert (candidate_keys this (Some arg) = Some ks) as Hks by by destruct arg.
  rewrite Hks in Hsig. destruct Hsig as (Hkeys & _ & Hr).
  split; [done|].
  destruct r as [p|e].
  - left. destruct Hr as (cs & c & -> & Hcs & Hp). by exists cs, c, p.
  - right. destruct Hr as (Hlen & Hfail & ->).
    destruct new as [|c new _] using rev_ind.
    + right. split; [|done]. symmetry in Hlen. by apply nil_length_inv in Hlen.
    + left. pose proof Hfail as Hc.
      apply Forall_app in Hc as [_ Hc]. apply Forall_inv in Hc.
      destruct (final_error_failed None new c Hc) as (e0 & He0 & ->).
      by exists new, c, e0.
Qed.


(** C3 (as amended).  Whatever the token, the key argument, the options,
    the state of the world and the behaviour of the verifier, [verify]
    returns a [ValidationResult] and throws nothing.  The result is valid
    exactly when the verifier's last call was accepted and validating the
    claims it gave produced no error.  When the verifier's last call threw
    an [Error] object, the result is [{valid: false, error: message}] with
    that object's message; when it threw something else, the result is
    invalid and carries a fallback message: the generic failure when the
    value is falsy and was thrown for a candidate key, and
    ["Unknown error"] otherwise.  (What the verifier throws in a call that
    is not the last is not reported.) *)
Theorem verify_always_returns (this : SecEventParser) (jwt : string)
    (vk : option (KeyArgument KeyMaterial)) (co : option ValidationOptions) (st : State) :
  let m := mergeOptions (defaultValidationOptions (options this)) co in
  ∃ w' new r,
    verify this jwt vk co st = ({| world := w'; calls := calls st ++ new |}, inl r)
    ∧ (valid r = true
       ↔ ∃ c p, last new = Some c ∧ call_outcome c = inl p ∧ validateSecEvent p m = [])
    ∧ (∀ c msg, last new = Some c → call_outcome c = inr (ErrorObj msg) →
         r = {| valid := false; payload := None; error := Some msg; errors := None |})
    ∧ (∀ c t, last new = Some c → call_outcome c = inr (NonError t) →
         valid r = false ∧ payload r = None
         ∧ error r
           = Some match call_key c with
                  | RemoteKeys _ => "Unknown error"
                  | DirectKey _ =>
                      if t then "Unknown error"
                      else "Verification failed with all provided keys"
                  end).
Proof.
  intros m.
  destruct (verify_run this jwt vk co st) as (w' & new & r & _ & Hsig & Hrun).
  fold m in Hsig, Hrun.
  eexists w', new, _. split; [exact Hrun|].
  pose proof Hsig as Hthrown.
  apply signature_run_last in Hsig.
  destruct r as [p|e].
  - destruct Hsig as (c & Hlast & Hp). split; [|split].
    + unfold Parser.validation_result.
      destruct (validateSecEvent p m) as [|x l] eqn:E; cbn.
      * split; [|done]. intros _. exists c, p. by rewrite E.
      * split; [done|]. intros (c' & p' & Hl & Hp' & Hnil).
        rewrite Hlast in Hl. injection Hl as <-. congruence.
    + intros c' msg Hl Hc. rewrite Hlast in Hl. injection Hl as <-. congruence.
    + intros c' t Hl Hc. rewrite Hlast in Hl. injection Hl as <-. congruence.
  - split; [|split].
    + cbn. split; [done|]. intros (c & p & Hl & Hp & _).
      destruct (Hsig c Hl) as (e0 & He0 & _). congruence.
    + intros c msg Hl Hc.
      destruct (Hsig c Hl) as (e0 & He0 & [->|[Hf ->]]);
        rewrite Hc in He0; injection He0 as <-; done.
    + intros c t Hl Hc.
      destruct (signature_run_thrown _ _ _ _ _ _ Hthrown c Hl) as (e0 & He0 & ->).
      rewrite Hc in He0. injection He0 as <-.
      split; [done|]. split; [done|].
      destruct (call_key c); [|done]. by destruct t.
Qed.

(** C10 (as amended).  In every result of [verify] the payload is present
    exactly when the result is valid and the error exactly when it is not,
    so no result has both or neither.  The error is a non-empty string
    unless the verifier's last call threw an [Error] object whose message
    is empty, which is passed on as it is. *)
Theorem result_has_payload_or_error (this : SecEventParser) (jwt : string)
    (vk : option (KeyArgument KeyMaterial)) (co : option ValidationOptions) (st : State) :
  ∃ w' new r,
    verify this jwt vk co st = ({| world := w'; calls := calls st ++ new |}, inl r)
    ∧ (valid r = true ↔ is_Some (payload r))
    ∧ (valid r = false ↔ is_Some (error r))
    ∧ (error r = Some "" →
         ∃ c, last new = Some c ∧ call_outcome c = inr (ErrorObj "")).
Proof.
  destruct (verify_run this jwt vk co st) as (w' & new & r & _ & Hsig & Hrun).
  eexists w', new, _. split; [exact Hrun|].
  destruct r as [p|e].
  - set (m := mergeOptions _ _).
    destruct (validation_result_cases p m) as [[_ ->]|[Hne ->]]; cbn.
    + repeat split; try done; by intros [? ?].
    + repeat split; try done; try (by intros [? ?]).
      intros Hc. injection Hc as Hc. exfalso.
      eapply concat_nonempty; [exact Hne| |exact Hc].
      apply validateSecEvent_nonempty.
  - cbn. repeat split; try done; try (by intros [? ?]).
    intros [= Hm].
    pose proof (signature_run_last _ _ _ _ _ _ Hsig) as Hlast. cbn in Hlast.
    unfold signature_run in Hsig.
    destruct (jwks this) as [j|]; [|destruct (candidate_keys this vk) as [ks|]].
    + destruct Hsig as (c & -> & _ & _ & _ & Hc). exists c. split; [done|].
      rewrite Hc. by destruct e; simplify_eq/=.
    + destruct Hsig as (_ & _ & Hlen & Hfail & He).
      destruct new as [|c new _] using rev_ind.
      { cbn in He. by subst. }
      exists c. rewrite last_snoc. split; [done|].
      destruct (Hlast c) as (e0 & He0 & [<-|[_ ->]]); [by rewrite last_snoc| |done].
      rewrite He0. by destruct e; simplify_eq/=.
    + destruct Hsig as [_ He]. injection He as ->. discriminate Hm.
Qed.

(** *** Event URIs *)

Lemma occurrences_app (x : string) (l1 l2 : list string) :
  occurrences x (l1 ++ l2) = (occurrences x l1 + occurrences x l2)%nat.
Proof. unfold occurrences. by rewrite filter_app, length_app. Qed.

Lemma occurrences_absent (x : string) (l : list string) :
  x ∉ l → occurrences x l = 0%nat.
Proof.
  unfold occurrences. induction l as [|y l IH]; [done|].
  intros H. apply not_elem_of_cons in H as [Hxy Hl].
  rewrite filter_cons_False by congruence. auto.
Qed.

Lemma occurrences_NoDup (x : string) (l : list string) :
  NoDup l → x ∈ l → occurrences x l = 1%nat.
Proof.
  unfold occurrences. induction 1 as [|y l Hy Hl IH]; [by intros ?%elem_of_nil|].
  intros [->|Hx]%elem_of_cons.
  - rewrite filter_cons_True by done. cbn. f_equal.
    by apply (occurrences_absent y l).
  - rewrite filter_cons_False by (intros ->; done). auto.
Qed.

Lemma occurrences_fmap (f : string → string) `{!Inj (=) (=) f}
    (x : string) (l : list string) :
  occurrences (f x) (f <$> l) = occurrences x l.
Proof.
  unfold occurrences. induction l as [|y l IH]; [done|].
  rewrite fmap_cons. destruct (decide (y = x)) as [->|Hne].
  - rewrite !filter_cons_True by done. cbn. by rewrite IH.
  - rewrite !filter_cons_False; [done|done|]. by intros ?%(inj f).
Qed.

Lemma uri_error_elsewhere (p : JsObject) (m : ValidationOptions) (k : string) :
  "Invalid event URI format: " +:+ k ∉ structure_errors p ++ required_claim_errors p m.
Proof.
  rewrite elem_of_app. intros [H|H].
  - unfold structure_errors, validatePayloadStructure in H.
    repeat case_match; simplify_eq; cbn in H;
      try (by apply elem_of_nil in H);
      apply list_elem_of_singleton in H; discriminate H.
  - unfold required_claim_errors in H.
    destruct (read (requiredClaims m)); [|by apply elem_of_nil in H].
    apply list_elem_of_fmap in H as (c & Hc & _). discriminate Hc.
Qed.

(** The errors about event URIs among those [validateSecEvent] gives for
    claims whose [events] is a mapping: one for each key that is not a
    valid event URI, and none that does not name such a key. *)
Lemma event_uri_errors (p ev : JsObject) (m : ValidationOptions) :
  p !! "events" = Some (JObj ev) →
  (∀ k, is_Some (ev !! k) → isValidEventUri new_URL k = false →
     occurrences ("Invalid event URI format: " +:+ k) (validateSecEvent p m) = 1%nat)
  ∧ (∀ k, "Invalid event URI format: " +:+ k ∈ validateSecEvent p m →
       is_Some (ev !! k) ∧ isValidEventUri new_URL k = false).
Proof.
  intros Hev. apply prop_lookup in Hev; [|done].
  unfold Parser.validateSecEvent, event_errors. rewrite Hev.
  cbn [truthy Object_keys].
  set (invalid := filter (fun eventUri => isValidEventUri new_URL eventUri = false) (own_keys ev)).
  set (none := if Nat.eqb (length (own_keys ev)) 0
               then ["No events present in events claim"] else []).
  assert (Hnone : ∀ k, "Invalid event URI format: " +:+ k ∉ none).
  { intros k H. unfold none in H. case_match; [|by apply elem_of_nil in H].
    apply list_elem_of_singleton in H. discriminate H. }
  assert (Hinv : ∀ k, k ∈ invalid ↔ is_Some (ev !! k) ∧ isValidEventUri new_URL k = false).
  { intros k. unfold invalid. rewrite list_elem_of_filter.
    unfold own_keys. rewrite <- elem_of_dom, <- (elem_of_elements (dom ev)).
    assert (k ∈ (map_to_list ev).*1 ↔ k ∈ elements (dom ev)) as ->; [|tauto].
    rewrite elem_of_elements, elem_of_dom.
    rewrite list_elem_of_fmap. split.
    - intros ([k' v] & -> & H). exists v. by apply elem_of_map_to_list.
    - intros [v H]. exists (k, v). split; [done|]. by apply elem_of_map_to_list. }
  assert (Hnd : NoDup invalid).
  { unfold invalid, own_keys. apply NoDup_filter, NoDup_fst_map_to_list. }
  split.
  - intros k Hk Hbad.
    rewrite app_assoc, occurrences_app.
    rewrite (occurrences_absent _ (_ ++ _)) by apply uri_error_elsewhere.
    rewrite occurrences_app, (occurrences_absent _ none) by apply Hnone.
    rewrite (occurrences_fmap (String.append "Invalid event URI format: ")).
    cbn. apply occurrences_NoDup; [done|]. by apply Hinv.
  - intros k. rewrite app_assoc. intros H.
    apply elem_of_app in H as [H|H]; [|apply elem_of_app in H as [H|H]].
    + by apply uri_error_elsewhere in H.
    + by apply Hnone in H.
    + apply list_elem_of_fmap in H as (k' & Hk' & H).
      apply (inj (String.append _)) in Hk' as ->. by apply Hinv.
Qed.

(** The test the code makes is the one the specification asks for. *)
Lemma isValidEventUri_spec (k : string) :
  isValidEventUri new_URL k = true ↔ absolute_http_uri new_URL k.
Proof.
  unfold Parser.isValidEventUri, absolute_http_uri.
  destruct (new_URL k) as [url|e].
  - rewrite orb_true_iff, !String.eqb_eq. split.
    + intros H. exists url. split; [done|]. tauto.
    + intros (u & [= <-] & H). tauto.
  - split; [done|]. by intros (u & H & _).
Qed.

Lemma isValidEventUri_false (k : string) :
  isValidEventUri new_URL k = false ↔ ¬ absolute_http_uri new_URL k.
Proof. by rewrite <- isValidEventUri_spec, not_true_iff_false. Qed.

(** C7.  When the verified claims carry an [events] mapping, the errors
    [verify] reports contain, for every key of the mapping that is not an
    absolute URI with scheme [http] or [https] (one the URL parser rejects,
    or accepts with another scheme), exactly one error
    ["Invalid event URI format: <key>"]; every such key gets its error,
    whatever else is wrong; an error of that form only ever names such a
    key; so a mapping whose keys are all absolute [http] or [https] URIs
    contributes none. *)
Theorem invalid_event_uris_reported (this : SecEventParser) (jwt : string)
    (vk : option (KeyArgument KeyMaterial)) (co : option ValidationOptions)
    (st : State) (p ev : JsObject) :
  let m := mergeOptions (defaultValidationOptions (options this)) co in
  (verifySignature this jwt vk m st).2 = inl p →
  p !! "events" = Some (JObj ev) →
  ∃ st' r,
    verify this jwt vk co st = (st', inl r)
    ∧ let reported := default [] (errors r) in
      (∀ k, is_Some (ev !! k) → ¬ absolute_http_uri new_URL k →
         occurrences ("Invalid event URI format: " +:+ k) reported = 1%nat)
      ∧ (∀ k, "Invalid event URI format: " +:+ k ∈ reported →
           is_Some (ev !! k) ∧ ¬ absolute_http_uri new_URL k)
      ∧ ((∀ k, is_Some (ev !! k) → absolute_http_uri new_URL k) →
           ∀ k, "Invalid event URI format: " +:+ k ∉ reported).
Proof.
  intros m Hp Hev.
  rewrite verify_unfold. fold m.
  destruct (verifySignature this jwt vk m st) as [st' r0]. cbn in Hp. subst r0.
  exists st', (validation_result p m). split; [done|].
  assert (default [] (errors (validation_result p m)) = validateSecEvent p m) as ->.
  { by destruct (validation_result_cases p m) as [[-> ->]|[_ ->]]. }
  destruct (event_uri_errors p ev m Hev) as [Hone Honly].
  split; [|split].
  - intros k Hk Hbad. apply Hone; [done|]. by apply isValidEventUri_false.
  - intros k Hk. apply Honly in Hk as [Hin Hbad]. split; [done|].
    by apply isValidEventUri_false.
  - intros Hall k Hk. apply Honly in Hk as [Hin Hbad].
    apply isValidEventUri_false in Hbad. by apply Hbad, Hall.
Qed.

End WithVerifier.

Section WithDecoder.

Variable decodeJwt : string -> JsObject + Thrown.

(** *** Structural validation and [decode] *)

(** [!v || typeof v !== 'object'] lets through the objects and the arrays. *)
Lemma object_check (p : JsObject) (k : string) :
  negb (truthy (prop p k)) || negb (bool_decide (typeof (prop p k) = TObject)) = false
  ↔ (∃ o, p !! k = Some (JObj o)) ∨ (∃ l, p !! k = Some (JArr l)).
Proof.
  split.
  - intros H. destruct (prop p k) as [| |b|q|s|l|o] eqn:E;
      cbn in H; rewrite ?orb_true_r in H; try done.
    + right. exists l. by apply prop_lookup.
    + left. exists o. by apply prop_lookup.
  - intros [[o H]|[l H]]; apply prop_lookup in H; try done; by rewrite H.
Qed.

(** [!v || typeof v !== 'string'] lets through the non-empty strings. *)
Lemma string_check (p : JsObject) (k : string) :
  negb (truthy (prop p k)) || negb (bool_decide (typeof (prop p k) = TString)) = false
  ↔ ∃ s, p !! k = Some (JStr s) ∧ s ≠ "".
Proof.
  split.
  - intros H. destruct (prop p k) as [| |b|q|s|l|o] eqn:E;
      cbn in H; rewrite ?orb_true_r in H; try done.
    exists s. split; [by apply prop_lookup|].
    intros ->. done.
  - intros (s & H & Hs). apply prop_lookup in H; [|done]. rewrite H. cbn.
    apply String.eqb_neq in Hs. by rewrite Hs.
Qed.

(** [typeof v !== 'number'] lets through the numbers. *)
Lemma number_check (p : JsObject) (k : string) :
  negb (bool_decide (typeof (prop p k) = TNumber)) = false
  ↔ ∃ q, p !! k = Some (JNum q).
Proof.
  split.
  - intros H. destruct (prop p k) as [| |b|q|s|l|o] eqn:E; try done.
    exists q. by apply prop_lookup.
  - intros (q & H). apply prop_lookup in H; [|done]. by rewrite H.
Qed.

(** C6 (as amended).  [decode] throws what the decoder throws when the
    token cannot be parsed.  Otherwise it checks the claims in the order
    [events], [iss], [jti], [iat] and throws the error of the first check
    that fails: the missing-events error unless [events] is an object,
    which includes an array; the missing-issuer error unless [iss] is a
    non-empty string; the missing-jti error unless [jti] is a non-empty
    string; the missing-iat error unless [iat] is a number.  When all four
    hold, it returns the decoded claims unchanged. *)
Theorem decode_outcome (jwt : string) :
  (∀ e, decodeJwt jwt = inr e → decode decodeJwt jwt = inr e)
  ∧ (∀ p, decodeJwt jwt = inl p →
       let events_ok :=
         (∃ o, p !! "events" = Some (JObj o)) ∨ (∃ l, p !! "events" = Some (JArr l)) in
       let iss_ok := ∃ s, p !! "iss" = Some (JStr s) ∧ s ≠ "" in
       let jti_ok := ∃ s, p !! "jti" = Some (JStr s) ∧ s ≠ "" in
       let iat_ok := ∃ q, p !! "iat" = Some (JNum q) in
       (¬ events_ok →
          decode decodeJwt jwt = inr (ErrorObj "Missing or invalid events claim"))
       ∧ (events_ok → ¬ iss_ok →
          decode decodeJwt jwt = inr (ErrorObj "Missing or invalid issuer claim"))
       ∧ (events_ok → iss_ok → ¬ jti_ok →
          decode decodeJwt jwt = inr (ErrorObj "Missing or invalid jti claim"))
       ∧ (events_ok → iss_ok → jti_ok → ¬ iat_ok →
          decode decodeJwt jwt = inr (ErrorObj "Missing or invalid iat claim"))
       ∧ (events_ok → iss_ok → jti_ok → iat_ok → decode decodeJwt jwt = inl p)).
Proof.
  split.
  - intros e He. unfold decode. by rewrite He.
  - intros p Hp events_ok iss_ok jti_ok iat_ok.
    unfold decode, validatePayloadStructure. rewrite Hp.
    pose proof (object_check p "events") as He.
    pose proof (string_check p "iss") as Hi.
    pose proof (string_check p "jti") as Hj.
    pose proof (number_check p "iat") as Ht.
    fold events_ok in He. fold iss_ok in Hi. fold jti_ok in Hj. fold iat_ok in Ht.
    destruct (negb (truthy (prop p "events")) || _) eqn:E1.
    { assert (¬ events_ok) by (intros H; apply He in H; congruence).
      split_and!; intros; try done; tauto. }
    apply proj1 in He. specialize (He eq_refl).
    destruct (negb (truthy (prop p "iss")) || _) eqn:E2.
    { assert (¬ iss_ok) by (intros H; apply Hi in H; congruence).
      split_and!; intros; try done; tauto. }
    apply proj1 in Hi. specialize (Hi eq_refl).
    destruct (negb (truthy (prop p "jti")) || _) eqn:E3.
    { assert (¬ jti_ok) by (intros H; apply Hj in H; congruence).
      split_and!; intros; try done; tauto. }
    apply proj1 in Hj. specialize (Hj eq_refl).
    destruct (negb (bool_decide (typeof (prop p "iat") = TNumber))) eqn:E4.
    { assert (¬ iat_ok) by (intros H; apply Ht in H; congruence).
      split_and!; intros; try done; tauto. }
    apply proj1 in Ht. specialize (Ht eq_refl).
    split_and!; intros; try done; tauto.
Qed.

End WithDecoder.

(** *** The theorems at work on concrete runs *)

(** Three candidate keys of which the second is the right one: the
    verifier is called with a prefix of them, in order. *)
Lemma candidate_keys_tried_in_order_witness :
  let ks := [Sample.hmac "wrong-1"; Sample.hmac "correct"; Sample.hmac "wrong-2"] in
  ∃ w' new r,
    verify Sample.new_URL Sample.jwtVerify Sample.plain_parser "a.b.c"
      (Some (KeyArray ks)) None Sample.start
    = ({| world := w'; calls := new |}, inl r)
    ∧ call_key <$> new = direct (take (length new) ks).
Proof.
  intros ks.
  destruct (candidate_keys_tried_in_order Sample.new_URL Sample.jwtVerify
              Sample.plain_parser "a.b.c" (KeyArray ks) None Sample.start eq_refl)
    as (w' & new & r & Hrun & Hkeys & _).
  exists w', new, r. split; [exact Hrun|exact Hkeys].
Defined.


(** What that run is: both static keys are tried, the first is rejected,
    and the claims the second vouches for are the result. *)
Example static_keys_are_tried :
  let run :=
    verify Sample.new_URL Sample.jwtVerify Scenario.static_parser "a.b.c" None None
      Sample.start in
  call_key <$> calls run.1 = [DirectKey "wrong"; DirectKey "correct"]
  ∧ run.2 = inl {| valid := true; payload := Some Sample.good_payload;
                   error := None; errors := None |}.
Proof. split; reflexivity. Qed.

(** A wrong key: the verifier's error comes back as the result's error. *)
Lemma verify_always_returns_witness :
  (verify Sample.new_URL Sample.jwtVerify Sample.plain_parser "a.b.c"
     (Some (SingleKey (Sample.hmac "wrong"))) None Sample.start).2
  = inl {| valid := false; payload := None;
           error := Some "signature verification failed"; errors := None |}.
Proof.
  destruct (verify_always_returns Sample.new_URL Sample.jwtVerify
              Sample.plain_parser "a.b.c" (Some (SingleKey (Sample.hmac "wrong")))
              None Sample.start)
    as (w' & new & r & Hrun & _ & Herror & _).
  rewrite Hrun. cbn [snd]. f_equal.
  vm_compute in Hrun. injection Hrun as Hw Hnew Hr. subst w' new.
  eapply Herror; reflexivity.
Defined.

Lemma result_has_payload_or_error_witness :
  ∃ w' new r,
    verify Sample.new_URL Sample.jwtVerify Sample.plain_parser "a.b.c"
      (Some (SingleKey (Sample.hmac "correct"))) None Sample.start
    = ({| world := w'; calls := new |}, inl r)
    ∧ (valid r = true ↔ is_Some (payload r))
    ∧ (valid r = false ↔ is_Some (error r)).
Proof.
  destruct (result_has_payload_or_error Sample.new_URL Sample.jwtVerify
              Sample.plain_parser "a.b.c" (Some (SingleKey (Sample.hmac "correct")))
              None Sample.start)
    as (w' & new & r & Hrun & Hpayload & Herror & _).
  exists w', new, r. split; [exact Hrun|]. split; [exact Hpayload|exact Herror].
Defined.

(** A well-formed token decodes to its claims. *)
Lemma decode_outcome_witness :
  decode Sample.decodeJwt "good.jwt.token" = inl Sample.good_payload.
Proof.
  destruct (decode_outcome Sample.decodeJwt "good.jwt.token") as [_ H].
  destruct (H Sample.good_payload eq_refl) as (_ & _ & _ & _ & Hok).
  apply Hok.
  - left. eexists. reflexivity.
  - eexists. split; [reflexivity|discriminate].
  - eexists. split; [reflexivity|discriminate].
  - eexists. reflexivity.
Defined.

(** Verified claims whose events include a key that is no URL and a key
    that is a URL of the scheme [mailto]. *)
Lemma invalid_event_uris_reported_witness :
  ∃ st' r,
    verify Sample.new_URL
      (Sample.jwtVerify_rejecting (ErrorObj "signature verification failed")
         Scenario.mixed_uri_payload)
      Sample.plain_parser "a.b.c" (Some (SingleKey (Sample.hmac "correct"))) None
      Sample.start
    = (st', inl r)
    ∧ occurrences "Invalid event URI format: not-a-url" (default [] (errors r)) = 1%nat
    ∧ occurrences "Invalid event URI format: mailto:security@example.com"
        (default [] (errors r)) = 1%nat.
Proof.
  destruct (invalid_event_uris_reported Sample.new_URL
              (Sample.jwtVerify_rejecting (ErrorObj "signature verification failed")
                 Scenario.mixed_uri_payload)
              Sample.plain_parser "a.b.c" (Some (SingleKey (Sample.hmac "correct")))
              None Sample.start Scenario.mixed_uri_payload
              (obj_literal [("not-a-url", JObj ∅);
                            ("mailto:security@example.com", JObj ∅);
                            (Events.VERIFICATION, JObj ∅)])
              eq_refl eq_refl)
    as (st' & r & Hrun & Hone & _).
  exists st', r. split; [exact Hrun|]. split.
  - apply (Hone "not-a-url"); [eexists; reflexivity|].
    intros (url & H & _). discriminate H.
  - apply (Hone "mailto:security@example.com"); [eexists; reflexivity|].
    intros (url & H & Hp). injection H as <-. destruct Hp as [Hp|Hp]; discriminate Hp.
Defined.

(** *** Where the statements of the specification fail *)


(** C3 (as stated) fails: an exception of the verifier is not always
    reported.  What the verifier throws for a candidate key is dropped when
    a later key is accepted, and the result is valid; and a thrown value
    that is no [Error] object is reported with a fallback message in place
    of a message of its own. *)
Lemma verifier_exception_not_reported :
  let dropped :=
    verify Sample.new_URL Sample.jwtVerify Sample.plain_parser "a.b.c"
      (Some (KeyArray [Sample.hmac "wrong"; Sample.hmac "correct"])) None
      Sample.start in
  let no_error_object :=
    verify Sample.new_URL (Sample.jwtVerify_rejecting (NonError true) Sample.good_payload)
      Sample.plain_parser "a.b.c" (Some (SingleKey (Sample.hmac "wrong"))) None
      Sample.start in
  (call_outcome <$> calls dropped.1
   = [inr (ErrorObj "signature verification failed"); inl Sample.good_payload]
   ∧ dropped.2 = inl {| valid := true; payload := Some Sample.good_payload;
                        error := None; errors := None |})
  ∧ (call_outcome <$> calls no_error_object.1 = [inr (NonError true)]
     ∧ no_error_object.2 = inl {| valid := false; payload := None;
                                  error := Some "Unknown error"; errors := None |}).
Proof. repeat split; reflexivity. Qed.

(** C4 (as stated) fails: with a remote key set configured, none of the
    candidate keys passed to [verify] is tried, not even one the verifier
    would accept; and when what the verifier throws for the last candidate
    is a falsy value, the generic failure is reported instead, as for an
    empty list of candidates. *)
Lemma remote_key_set_bypasses_key_trial :
  let ks := KeyArray [Sample.hmac "wrong"; Sample.hmac "correct"] in
  let remote :=
    verify Sample.new_URL Sample.jwtVerify Sample.jwks_parser "a.b.c"
      (Some ks) None Sample.start in
  let falsy :=
    verify Sample.new_URL (Sample.jwtVerify_rejecting (NonError false) Sample.good_payload)
      Sample.plain_parser "a.b.c"
      (Some (KeyArray [Sample.hmac "wrong-1"; Sample.hmac "wrong-2"])) None
      Sample.start in
  (call_key <$> calls remote.1
   = [RemoteKeys {| jwks_url := {| href := "https://idp.example.com/jwks.json";
                                   protocol := "https:" |} |}]
   ∧ remote.2 = inl {| valid := true; payload := Some Sample.remote_payload;
                       error := None; errors := None |})
  ∧ (call_outcome <$> calls falsy.1 = [inr (NonError false); inr (NonError false)]
     ∧ falsy.2 = inl {| valid := false; payload := None;
                        error := Some "Verification failed with all provided keys";
                        errors := None |}).
Proof. repeat split; reflexivity. Qed.

(** C6 (as stated) fails: claims whose [events] is an array, which is no
    mapping, pass the structural validation. *)
Lemma decode_accepts_array_events :
  decode Sample.decodeJwt "array.jwt.token" = inl Sample.array_events_payload
  ∧ Sample.array_events_payload !! "events" = Some (JArr []).
Proof. split; reflexivity. Qed.

(** C10 (as stated) fails: when the verifier throws an [Error] whose
    message is empty, the result's error is present and empty. *)
Lemma empty_error_message_passed_on :
  (verify Sample.new_URL (Sample.jwtVerify_rejecting (ErrorObj "") Sample.good_payload)
     Sample.plain_parser "a.b.c" (Some (SingleKey (Sample.hmac "wrong"))) None
     Sample.start).2
  = inl {| valid := false; payload := None; error := Some ""; errors := None |}.
Proof. reflexivity. Qed.

End ParserFacts.

(** ** Properties of the subject identifiers *)

Module SubjectFacts.

Import Subject.

Lemma guards_count (subject : JsObject) (gs : list (JsObject → bool)) :
  length (filter (fun guard => guard subject = true) gs)
  = sum_list ((fun guard => Nat.b2n (guard subject)) <$> gs).
Proof.
  induction gs as [|g gs IH]; [done|].
  rewrite fmap_cons. cbn [sum_list_with]. rewrite <- IH.
  destruct (g subject) eqn:E.
  - by rewrite filter_cons_True.
  - rewrite filter_cons_False; [done|congruence].
Qed.

(** X1.  Whatever object is passed, at most one of the eight type guards
    answers [true]: the format tags are pairwise different. *)
Theorem guards_exclusive (subject : JsObject) :
  length (filter (fun guard => guard subject = true) guards) ≤ 1.
Proof.
  rewrite guards_count.
  unfold guards, isAccountIdentifier, isEmailIdentifier, isIssuerSubjectIdentifier,
    isOpaqueIdentifier, isPhoneNumberIdentifier, isDidIdentifier, isUriIdentifier,
    isAliasesIdentifier.
  cbn. destruct (prop subject "format") as [| |b|q|s|l|o]; cbn; try lia.
  destruct (String.eqb_spec s "account") as [->|?]; [cbn; lia|].
  destruct (String.eqb_spec s "email") as [->|?]; [cbn; lia|].
  destruct (String.eqb_spec s "iss_sub") as [->|?]; [cbn; lia|].
  destruct (String.eqb_spec s "opaque") as [->|?]; [cbn; lia|].
  destruct (String.eqb_spec s "phone_number") as [->|?]; [cbn; lia|].
  destruct (String.eqb_spec s "did") as [->|?]; [cbn; lia|].
  destruct (String.eqb_spec s "uri") as [->|?]; [cbn; lia|].
  destruct (String.eqb_spec s "aliases") as [->|?]; cbn; lia.
Qed.

(** X2.  Each factory builds an identifier that its own guard accepts and
    no other guard does, that has the format field and the fields for its
    arguments and no other, and that holds the arguments unchanged. *)
Theorem factories_build_their_variant :
  (∀ u, let s := account u in
     (fun guard => guard s) <$> guards
     = [true; false; false; false; false; false; false; false]
     ∧ dom s = {[ "format"; "uri" ]} ∧ s !! "uri" = Some (JStr u))
  ∧ (∀ e, let s := email e in
     (fun guard => guard s) <$> guards
     = [false; true; false; false; false; false; false; false]
     ∧ dom s = {[ "format"; "email" ]} ∧ s !! "email" = Some (JStr e))
  ∧ (∀ i u, let s := issuerSubject i u in
     (fun guard => guard s) <$> guards
     = [false; false; true; false; false; false; false; false]
     ∧ dom s = {[ "format"; "iss"; "sub" ]}
     ∧ s !! "iss" = Some (JStr i) ∧ s !! "sub" = Some (JStr u))
  ∧ (∀ i, let s := opaque i in
     (fun guard => guard s) <$> guards
     = [false; false; false; true; false; false; false; false]
     ∧ dom s = {[ "format"; "id" ]} ∧ s !! "id" = Some (JStr i))
  ∧ (∀ n, let s := phoneNumber n in
     (fun guard => guard s) <$> guards
     = [false; false; false; false; true; false; false; false]
     ∧ dom s = {[ "format"; "phone_number" ]} ∧ s !! "phone_number" = Some (JStr n))
  ∧ (∀ u, let s := did u in
     (fun guard => guard s) <$> guards
     = [false; false; false; false; false; true; false; false]
     ∧ dom s = {[ "format"; "url" ]} ∧ s !! "url" = Some (JStr u))
  ∧ (∀ u, let s := uri u in
     (fun guard => guard s) <$> guards
     = [false; false; false; false; false; false; true; false]
     ∧ dom s = {[ "format"; "uri" ]} ∧ s !! "uri" = Some (JStr u))
  ∧ (∀ ids, let s := aliases ids in
     (fun guard => guard s) <$> guards
     = [false; false; false; false; false; false; false; true]
     ∧ dom s = {[ "format"; "identifiers" ]} ∧ s !! "identifiers" = Some (JArr ids)).
Proof. repeat split; reflexivity. Qed.

End SubjectFacts.

(** ** Properties of the ID generators *)

Module GeneratorFacts.

Import Generator.

Lemma append_cons (a : Ascii.ascii) (s x : string) :
  String a s +:+ x = String a (s +:+ x).
Proof. reflexivity. Qed.

Lemma append_empty (x : string) : "" +:+ x = x.
Proof. reflexivity. Qed.

Lemma has_dash_append (s x : string) :
  has_dash (s +:+ x) = has_dash s || has_dash x.
Proof.
  induction s as [|a s IH]; [done|].
  rewrite append_cons. cbn [has_dash]. rewrite IH. by destruct (String.eqb _ _).
Qed.

Lemma has_dash_app (s r : string) : has_dash (s +:+ "-" +:+ r) = true.
Proof.
  rewrite has_dash_append, append_cons, append_empty. cbn. apply orb_true_r.
Qed.

(** The text after the last dash determines the split. *)
Lemma split_at_last_dash (s1 s2 r1 r2 : string) :
  has_dash r1 = false → has_dash r2 = false →
  s1 +:+ "-" +:+ r1 = s2 +:+ "-" +:+ r2 → s1 = s2 ∧ r1 = r2.
Proof.
  intros H1 H2. revert s2.
  induction s1 as [|a s1 IH]; intros [|b s2] Heq.
  - rewrite !append_empty in Heq. by apply (inj (String.append "-")) in Heq.
  - rewrite append_empty, (append_cons b s2), (append_cons _ "" r1), append_empty in Heq.
    injection Heq as _ ->. by rewrite has_dash_app in H1.
  - rewrite append_empty, (append_cons a s1), (append_cons _ "" r2), append_empty in Heq.
    injection Heq as _ <-. by rewrite has_dash_app in H2.
  - rewrite !(append_cons _ _ ("-" +:+ _)) in Heq.
    injection Heq as -> Heq. by destruct (IH _ Heq) as [-> ->].
Qed.

Lemma pretty_N_go_no_dash (x : N) (s : string) :
  has_dash s = false → has_dash (pretty_N_go x s) = false.
Proof.
  revert s. induction (N.lt_wf_0 x) as [x _ IH]; intros s Hs.
  assert (x = 0 ∨ 0 < x)%N as [->|?] by lia.
  - by rewrite pretty_N_go_0.
  - rewrite pretty_N_go_step by done. apply IH.
    { by apply N.div_lt. }
    cbn. rewrite Hs. unfold pretty_N_char. by repeat case_match.
Qed.

Lemma pretty_count_no_dash (n : N) : has_dash (pretty n) = false.
Proof.
  unfold pretty, pretty_N.
  case_decide; [done|]. by apply pretty_N_go_no_dash.
Qed.

Section WithWorld.

Context {World : Type}.
Variable Date_now : World -> Z.

(** While the counter is exact, each call moves it on by one. *)
Lemma increment_exact (count : N) :
  (count < 2 ^ 53)%N → increment count = (count + 1)%N.
Proof.
  intros H. unfold increment. by rewrite (proj2 (N.ltb_lt _ _) H).
Qed.

Lemma run_counts (g : TimestampGenerator) (ws : list World) (id : string) :
  (counter g + N.of_nat (length ws) ≤ 2 ^ 53)%N →
  id ∈ TimestampGenerator_run Date_now g ws →
  ∃ (t : Z) (n : N), id = pretty t +:+ "-" +:+ pretty n ∧ (counter g ≤ n)%N.
Proof.
  revert g. induction ws as [|w ws IH]; intros g Hb; cbn [TimestampGenerator_run].
  - by intros ?%elem_of_nil.
  - cbn [length] in Hb. rewrite Nat2N.inj_succ in Hb.
    unfold TimestampGenerator_generate.
    intros [->|H]%elem_of_cons.
    + by exists (Date_now w), (counter g).
    + apply IH in H as (t & n & -> & Hn).
      * exists t, n. split; [done|]. cbn [counter] in Hn.
        rewrite increment_exact in Hn by lia. lia.
      * cbn [counter]. rewrite increment_exact by lia. lia.
Qed.

(** X3.  The identifiers one [TimestampGenerator] hands out are pairwise
    different, whatever the clock shows at each call (even the same
    millisecond, or a clock that goes back), as long as the counter stays
    within the counts a JavaScript number holds exactly. *)
Theorem timestamp_ids_distinct (g : TimestampGenerator) (ws : list World) :
  (counter g + N.of_nat (length ws) ≤ 2 ^ 53)%N →
  NoDup (TimestampGenerator_run Date_now g ws).
Proof.
  revert g. induction ws as [|w ws IH]; intros g Hb; cbn [TimestampGenerator_run].
  { constructor. }
  cbn [length] in Hb. rewrite Nat2N.inj_succ in Hb.
  unfold TimestampGenerator_generate.
  assert (Hnext : increment (counter g) = (counter g + 1)%N)
    by (apply increment_exact; lia).
  constructor.
  - intros (t & n & Heq & Hn)%run_counts; cbn [counter] in *; [|rewrite Hnext; lia].
    apply split_at_last_dash in Heq as [_ Heq]; [|apply pretty_count_no_dash..].
    apply (inj pretty) in Heq. rewrite Hnext in Hn. lia.
  - apply IH. cbn [counter]. rewrite Hnext. lia.
Qed.

(** Past that, a stopped clock gives the same identifier again. *)
Lemma saturated_counter_repeats (w : World) :
  let g := {| counter := 2 ^ 53 |} in
  ¬ NoDup (TimestampGenerator_run Date_now g [w; w]).
Proof.
  cbn. intros H. apply NoDup_cons in H as [H _]. apply H. by left.
Qed.

(** X4.  A [PrefixedGenerator] calls its base generator once, leaves the
    world as the base generator leaves it, and returns the base identifier
    behind the prefix and a dash; so two of its identifiers are equal only
    if the base identifiers are. *)
Theorem prefixed_ids (prefix : string) (base : World → string * World) (w w0 : World) :
  PrefixedGenerator_generate prefix base w
  = (prefix +:+ "-" +:+ (base w).1, (base w).2)
  ∧ ((PrefixedGenerator_generate prefix base w).1
     = (PrefixedGenerator_generate prefix base w0).1 → (base w).1 = (base w0).1).
Proof.
  unfold PrefixedGenerator_generate.
  destruct (base w) as [id w'], (base w0) as [id0 w0']. cbn.
  split; [done|]. intros H.
  apply (inj (String.append prefix)) in H. by apply (inj (String.append "-")) in H.
Qed.

End WithWorld.

(** Three identifiers of a new generator while the clock stands still. *)
Lemma timestamp_ids_distinct_witness :
  NoDup (TimestampGenerator_run Sample.clock new_TimestampGenerator [0; 1; 2]%nat).
Proof.
  apply (timestamp_ids_distinct Sample.clock new_TimestampGenerator [0; 1; 2]%nat).
  vm_compute. discriminate.
Defined.

(** The prefix [evt] over the sample generator. *)
Lemma prefixed_ids_witness :
  (PrefixedGenerator_generate "evt" Sample.counting_generator 3%nat).1 = "evt-id-3".
Proof.
  destruct (prefixed_ids "evt" Sample.counting_generator 3%nat 3%nat) as [H _].
  rewrite H. reflexivity.
Defined.

End GeneratorFacts.

(** ** Properties of the key manager *)

Module KeyManagerFacts.

Import KeyManager.

Section WithKeys.

Context {KeyMaterial : Type}.

Abbreviation KeyManager := (KeyManager.KeyManager KeyMaterial).
Abbreviation Change := (Change KeyMaterial).

(** The key as [addKey] stores it under [id]. *)
Abbreviation stored id k := {| kid := Some id; alg := alg k; key := key k |}.

Lemma Map_get_set (k k' : string) (v : SigningKey KeyMaterial) (m : KeyManager) :
  Map_get k' (Map_set k v m) = if decide (k = k') then Some v else Map_get k' m.
Proof.
  induction m as [|[k0 v0] m IH]; cbn.
  - repeat case_decide; congruence.
  - repeat (case_decide; cbn); congruence.
Qed.

Lemma Map_set_keys (k : string) (v : SigningKey KeyMaterial) (m : KeyManager) :
  (Map_set k v m).*1 = if decide (k ∈ m.*1) then m.*1 else m.*1 ++ [k].
Proof.
  induction m as [|[k0 v0] m IH]; cbn.
  - case_decide as H; [by apply elem_of_nil in H|done].
  - destruct (decide (k0 = k)) as [->|Hne]; cbn.
    + rewrite decide_True; [done|left].
    + rewrite IH. destruct (decide (k ∈ m.*1)) as [Hin|Hnin].
      * rewrite decide_True; [done|by right].
      * rewrite decide_False; [done|].
        intros [->|?]%elem_of_cons; done.
Qed.

Lemma Map_get_Some (k : string) (v : SigningKey KeyMaterial) (m : KeyManager) :
  NoDup m.*1 → (Map_get k m = Some v ↔ (k, v) ∈ m).
Proof.
  induction m as [|[k0 v0] m IH]; cbn.
  - intros _. split; [done|by intros ?%elem_of_nil].
  - intros [Hk0 Hnd]%NoDup_cons. destruct (decide (k0 = k)) as [->|Hne].
    + split.
      * intros [= ->]. left.
      * intros [[= ->]|Hin]%elem_of_cons; [done|].
        destruct Hk0. apply list_elem_of_fmap. by exists (k, v).
    + rewrite IH by done. split.
      * by right.
      * intros [[= -> ->]|Hin]%elem_of_cons; done.
Qed.

Lemma Map_get_None (k : string) (m : KeyManager) :
  Map_get k m = None ↔ k ∉ m.*1.
Proof.
  induction m as [|[k0 v0] m IH]; cbn.
  - split; [intros _; apply not_elem_of_nil|done].
  - destruct (decide (k0 = k)) as [->|Hne].
    + split; [done|]. intros []. left.
    + rewrite IH, not_elem_of_cons. split; [by split|by intros [_ ?]].
Qed.

Lemma filter_all {A : Type} (P : A → Prop) `{!∀ x, Decision (P x)} (l : list A) :
  Forall P l → filter P l = l.
Proof.
  induction 1 as [|x l Hx Hl IH]; [done|].
  by rewrite filter_cons_True, IH.
Qed.

Lemma Map_get_filter (i id : string) (m : KeyManager) :
  Map_get i (filter (fun e => e.1 ≠ id) m)
  = if decide (i = id) then None else Map_get i m.
Proof.
  induction m as [|[k0 v0] m IH]; [cbn; by case_decide|].
  destruct (decide (k0 = id)) as [->|Hne].
  - rewrite filter_cons_False by (cbn; intros Hf; by apply Hf).
    rewrite IH. cbn [Map_get]. repeat case_decide; congruence.
  - rewrite filter_cons_True by done. cbn [Map_get]. rewrite IH.
    repeat case_decide; congruence.
Qed.

Lemma Map_delete_spec (k : string) (m : KeyManager) :
  NoDup m.*1 →
  Map_delete k m
  = (bool_decide (k ∈ m.*1), filter (fun e => e.1 ≠ k) m).
Proof.
  induction m as [|[k0 v0] m IH]; [done|].
  rewrite fmap_cons. intros [Hk0 Hnd]%NoDup_cons. cbn [Map_delete fst].
  destruct (decide (k0 = k)) as [->|Hne].
  - rewrite filter_cons_False by (cbn; intros Hf; by apply Hf).
    rewrite bool_decide_eq_true_2 by left. f_equal.
    symmetry. apply filter_all, Forall_forall.
    intros [k1 v1] Hin Heq. cbn in Heq. subst k1. apply Hk0.
    apply list_elem_of_fmap. by exists (k, v1).
  - rewrite IH by done. rewrite filter_cons_True by done. f_equal.
    apply bool_decide_ext. rewrite elem_of_cons.
    split; [by right|]. by intros [->|?].
Qed.

Lemma change_well_formed (c : Change) (m : KeyManager) :
  well_formed m → well_formed (change c m).
Proof.
  intros [Hnd Hkid]. destruct c as [id k|id|]; cbn.
  - unfold addKey. split.
    + rewrite Map_set_keys. case_decide; [done|].
      apply NoDup_app. split; [done|]. split; [|apply NoDup_singleton].
      intros x Hx ->%list_elem_of_singleton. done.
    + intros id' k' Hin.
      assert (Hnd' : NoDup (Map_set id (stored id k) m).*1).
      { rewrite Map_set_keys. case_decide; [done|].
        apply NoDup_app. split; [done|]. split; [|apply NoDup_singleton].
        intros x Hx ->%list_elem_of_singleton. done. }
      apply Map_get_Some in Hin; [|done]. rewrite Map_get_set in Hin.
      case_decide; [by injection Hin as <-; subst|].
      apply Map_get_Some in Hin; eauto.
  - unfold removeKey. rewrite Map_delete_spec by done. cbn. split.
    + apply (NoDup_fmap_fst _ ). 
      * intros x y1 y2 [_ H1]%list_elem_of_filter [_ H2]%list_elem_of_filter.
        apply Map_get_Some in H1, H2; try done. congruence.
      * apply NoDup_filter. eapply NoDup_fmap_1, Hnd.
    + intros id' k' [_ Hin]%list_elem_of_filter. eauto.
  - split; [constructor|]. by intros ? ? ?%elem_of_nil.
Qed.

Lemma after_snoc (cs : list Change) (c : Change) :
  after (cs ++ [c]) = change c (after cs).
Proof. unfold after. by rewrite foldl_app. Qed.

Lemma after_well_formed (cs : list Change) : well_formed (after cs).
Proof.
  induction cs as [|c cs IH] using rev_ind.
  - split; [constructor|]. by intros ? ? ?%elem_of_nil.
  - rewrite after_snoc. by apply change_well_formed.
Qed.

(** X5.  A key added under an identifier is what [getKey] returns for it,
    with its [kid] set to that identifier whatever [kid] it came with; it
    replaces a key stored under the same identifier before; and the keys
    stored under other identifiers are as they were. *)
Theorem added_key_is_found (m : KeyManager) (id id' : string) (k : SigningKey KeyMaterial) :
  getKey id (addKey id k m) = Some (stored id k)
  ∧ (id' ≠ id → getKey id' (addKey id k m) = getKey id' m).
Proof.
  unfold getKey, addKey. rewrite !Map_get_set. split.
  - by rewrite decide_True.
  - intros H. by rewrite decide_False.
Qed.

(** X6.  After any sequence of [addKey], [removeKey] and [clear] calls on
    a new key manager, no identifier is stored twice, every key found under
    an identifier has that identifier as its [kid], and [getAllKeys] lists
    exactly the keys [getKey] can find, each once per identifier. *)
Theorem manager_stays_well_formed (cs : list Change) :
  let m := after cs in
  NoDup m.*1
  ∧ (∀ id k, getKey id m = Some k → kid k = Some id)
  ∧ (∀ k, k ∈ getAllKeys m ↔ ∃ id, getKey id m = Some k)
  ∧ length (getAllKeys m) = length m.*1.
Proof.
  intros m. destruct (after_well_formed cs) as [Hnd Hkid]. fold m in Hnd, Hkid.
  split; [done|]. split; [|split].
  - intros id k H. apply Map_get_Some in H; eauto.
  - intros k. unfold getAllKeys, getKey. rewrite list_elem_of_fmap. split.
    + intros ([id k'] & -> & Hin). exists id. by apply Map_get_Some.
    + intros [id H]. exists (id, k). split; [done|]. by apply Map_get_Some in H.
  - unfold getAllKeys. by rewrite !length_fmap.
Qed.

(** X7.  On a key manager reached by any sequence of calls, [removeKey]
    answers whether a key was stored under the identifier; afterwards no
    key is found under it, the keys under other identifiers are found as
    before, and the remaining keys keep their order. *)
Theorem removed_key_is_gone (cs : list Change) (id id' : string) :
  let m := after cs in
  let '(found, m') := removeKey id m in
  (found = true ↔ is_Some (getKey id m))
  ∧ getKey id m' = None
  ∧ (id' ≠ id → getKey id' m' = getKey id' m)
  ∧ m' = filter (fun e => e.1 ≠ id) m.
Proof.
  intros m. destruct (after_well_formed cs) as [Hnd _]. fold m in Hnd.
  unfold removeKey. rewrite Map_delete_spec by done.
  pose proof (fun i => Map_get_filter i id m) as Hget.
  split; [|split; [|split]].
  - rewrite bool_decide_eq_true. unfold getKey.
    rewrite <- not_eq_None_Some, Map_get_None.
    split; [auto|]. intros H. by destruct (decide (id ∈ m.*1)).
  - unfold getKey. rewrite Hget. by rewrite decide_True.
  - intros H. unfold getKey. rewrite Hget. by rewrite decide_False.
  - done.
Qed.

(** X8.  There is no default key exactly when no key is stored.  Adding a key to an empty manager
    makes it the default; adding to a non-empty one never changes which
    identifier the default key is stored under, also when that identifier
    is added again (the default is then the new key); and removing the
    default key of a well-formed manager makes the next key in insertion
    order the default. *)
Theorem default_key_is_first (m : KeyManager) (id : string) (k : SigningKey KeyMaterial) :
  (getDefaultKey m = None ↔ getAllKeys m = [])
  ∧ getDefaultKey (addKey id k []) = Some (stored id k)
  ∧ (m ≠ [] → head (addKey id k m).*1 = head m.*1)
  ∧ (m ≠ [] →
       getDefaultKey (addKey id k m)
       = if decide (head m.*1 = Some id) then Some (stored id k) else getDefaultKey m)
  ∧ (well_formed m → head m.*1 = Some id →
       getDefaultKey (removeKey id m).2 = head (tail (getAllKeys m)))
  ∧ getDefaultKey (clear m) = None.
Proof.
  unfold getDefaultKey, getAllKeys.
  split; [|split; [done|split; [|split; [|split; [|done]]]]].
  - destruct m as [|[k0 v0] m]; cbn; split; done.
  - intros H. destruct m as [|[k0 v0] m]; [done|]. cbn.
    by destruct (decide (k0 = id)).
  - intros H. destruct m as [|[k0 v0] m]; [done|]. cbn.
    destruct (decide (k0 = id)) as [->|Hne]; cbn.
    + by rewrite decide_True.
    + rewrite decide_False; [done|]. by intros [= ->].
  - intros _ H. destruct m as [|[k0 v0] m]; [done|]. cbn in *.
    injection H as ->. by rewrite decide_True.
Qed.

End WithKeys.

(** Concrete managers for the theorems with a premise. *)
Lemma added_key_is_found_witness :
  getKey "key-1" (addKey "key-2" (Sample.hmac "b") (addKey "key-1" (Sample.hmac "a") []))
  = Some {| kid := Some "key-1"; alg := "HS256"; key := "a" |}.
Proof.
  destruct (added_key_is_found (addKey "key-1" (Sample.hmac "a") [])
              "key-2" "key-1" (Sample.hmac "b")) as [_ H].
  rewrite H by discriminate.
  destruct (added_key_is_found [] "key-1" "key-1" (Sample.hmac "a")) as [H1 _].
  exact H1.
Defined.

Lemma manager_stays_well_formed_witness :
  kid (Sample.hmac "a") = None
  ∧ ∀ k, getKey "key-1" (after [AddKey "key-1" (Sample.hmac "a")]) = Some k →
         kid k = Some "key-1".
Proof.
  split; [reflexivity|].
  destruct (manager_stays_well_formed [AddKey "key-1" (Sample.hmac "a")])
    as (_ & H & _).
  intros k. apply H.
Defined.

Lemma removed_key_is_gone_witness :
  getKey "key-2"
    (removeKey "key-1"
       (after [AddKey "key-1" (Sample.hmac "a"); AddKey "key-2" (Sample.hmac "b")])).2
  = Some {| kid := Some "key-2"; alg := "HS256"; key := "b" |}.
Proof.
  pose proof (removed_key_is_gone
                [AddKey "key-1" (Sample.hmac "a"); AddKey "key-2" (Sample.hmac "b")]
                "key-1" "key-2") as H.
  cbv zeta in H.
  destruct (removeKey "key-1" _) as [found m'] eqn:E in H.
  destruct H as (_ & _ & H & _).
  rewrite E. cbn [snd]. rewrite H by discriminate. reflexivity.
Defined.

Lemma default_key_is_first_witness :
  getDefaultKey
    (removeKey "key-1"
       (after [AddKey "key-1" (Sample.hmac "a"); AddKey "key-2" (Sample.hmac "b")])).2
  = Some {| kid := Some "key-2"; alg := "HS256"; key := "b" |}.
Proof.
  destruct (default_key_is_first
              (after [AddKey "key-1" (Sample.hmac "a"); AddKey "key-2" (Sample.hmac "b")])
              "key-1" (Sample.hmac "a")) as (_ & _ & _ & _ & H & _).
  rewrite H; [reflexivity| |reflexivity].
  apply after_well_formed.
Defined.

End KeyManagerFacts.

(** ** More properties of the builder *)

Module BuilderUse.

Import Builder Usage.

Local Set Warnings "-clear-no-such-hyp".

Section WithWorld.

Context {World KeyMaterial : Type}.
Variable defaultIdGenerator : World -> string * World.
Variable Date_now : World -> Z.

Abbreviation SecEventBuilder := (SecEventBuilder World KeyMaterial).
Abbreviation buildPayload := (buildPayload defaultIdGenerator Date_now).

Lemma clone_fixed (b : SecEventBuilder) :
  defaults_applied b →
  clone b = set_additionalClaims (additionalClaims b) Object_prototype b.
Proof.
  intros (Hi & Ha & Hk). destruct b as [o i a j t x ev c pr k]; cbn in *.
  unfold clone, new_SecEventBuilder, set_additionalClaims, spread; cbn.
  rewrite !(right_id_L ∅ (∪)).
  f_equal.
  - destruct i; [done|]. by rewrite Hi.
  - destruct a; [done|]. by rewrite Ha.
  - by destruct j.
  - by destruct t.
  - by destruct x.
  - destruct k; [done|]. by rewrite Hk.
Qed.

Lemma withEvents_fields (evs : list JsObject) (b : SecEventBuilder) :
  options (withEvents evs b) = options b
  ∧ issuer (withEvents evs b) = issuer b
  ∧ audience (withEvents evs b) = audience b
  ∧ this_signingKey (withEvents evs b) = this_signingKey b.
Proof.
  unfold withEvents. revert b.
  induction evs as [|e evs IH]; intros b; cbn; [done|].
  destruct (IH (withEvent e b)) as (-> & -> & -> & ->). done.
Qed.

Lemma step_defaults_applied (s : Step KeyMaterial) (b : SecEventBuilder) :
  defaults_applied b → defaults_applied (step s b).
Proof.
  intros (Hi & Ha & Hk). destruct s as [m| |]; cbn.
  - destruct m; cbn; try (by repeat split); try done.
    + unfold defaults_applied.
      by destruct (withEvents_fields evs b) as (-> & -> & -> & ->).
    + unfold withClaim. by repeat case_match.
  - unfold defaults_applied, reset; cbn. repeat split; by repeat case_match.
  - by rewrite clone_fixed.
Qed.

Lemma reached_snoc (opts : BuilderOptions World KeyMaterial)
    (steps : list (Step KeyMaterial)) (s : Step KeyMaterial) :
  reached opts (steps ++ [s]) = step s (reached opts steps).
Proof. unfold reached. by rewrite foldl_app. Qed.

Lemma reached_defaults_applied (opts : BuilderOptions World KeyMaterial)
    (steps : list (Step KeyMaterial)) :
  defaults_applied (reached opts steps).
Proof.
  induction steps as [|s steps IH] using rev_ind.
  - by repeat split.
  - rewrite reached_snoc. by apply step_defaults_applied.
Qed.

(** The payload does not depend on the prototype of the custom claims. *)
Lemma buildPayload_prototype (b : SecEventBuilder) (proto : Prototype) (w : World) :
  buildPayload (set_additionalClaims (additionalClaims b) proto b) w = buildPayload b w.
Proof. reflexivity. Qed.

(** X9.  On every builder reached from the constructor by mutator calls,
    resets and clones, [clone()] gives a builder with the same options and
    the same value in every field, the custom claims being a new object
    with the same properties of its own and the default prototype.  So the
    clone is the builder itself unless [withClaim('__proto__', ...)] has
    changed that prototype, and in any case building its payload gives
    what the original gives. *)
Theorem clone_copies_state (opts : BuilderOptions World KeyMaterial)
    (steps : list (Step KeyMaterial)) (w : World) :
  let b := reached opts steps in
  clone b = set_additionalClaims (additionalClaims b) Object_prototype b
  ∧ (claims_prototype b = Object_prototype → clone b = b)
  ∧ buildPayload (clone b) w = buildPayload b w.
Proof.
  intros b.
  assert (H : clone b = set_additionalClaims (additionalClaims b) Object_prototype b)
    by apply clone_fixed, reached_defaults_applied.
  split; [done|]. split.
  - intros Hp. rewrite H. destruct b; cbn in *. by rewrite Hp.
  - rewrite H. apply buildPayload_prototype.
Qed.

(** What a successful [buildPayload] returns. *)
Lemma buildPayload_returns (b : SecEventBuilder) (w w' : World) (p : JsObject) :
  buildPayload b w = (w', inl p) →
  ∃ id t,
    p = assembled b id t
    ∧ (∃ i, issuer b = Some i ∧ i ≠ "")
    ∧ events b ≠ ∅.
Proof.
  unfold Builder.buildPayload.
  destruct (truthy (optional JStr (issuer b))) eqn:Ei; cbn [negb]; [|done].
  destruct (Nat.eqb (length (own_keys (events b))) 0) eqn:Ee; [done|].
  destruct (jti_or_generate defaultIdGenerator b w) as [id w1].
  intros [= <- <-]. eexists _, _. split; [done|]. split.
  - destruct (issuer b) as [i|]; [|done]. exists i. split; [done|].
    intros ->. done.
  - intros Hev. apply BuilderFacts.no_events_iff in Hev. congruence.
Qed.

(** X10.  The payload [buildPayload] returns has the claims [iss], [jti],
    [iat] and [events], the custom claims, [aud] when the audience is set
    to something other than the empty string, [txn] when it is set to a
    non-empty string, and no other claim. *)
Theorem payload_claim_names (b : SecEventBuilder) (w w' : World) (p : JsObject) :
  buildPayload b w = (w', inl p) →
  dom p
  = {[ "iss"; "jti"; "iat"; "events" ]} ∪ dom (additionalClaims b)
    ∪ (match audience b with
       | Some (OneString "") | None => ∅
       | Some _ => {[ "aud" ]}
       end)
    ∪ (match txn b with
       | Some "" | None => ∅
       | Some _ => {[ "txn" ]}
       end).
Proof.
  intros (id & t & -> & _ & _)%buildPayload_returns.
  unfold assembled, spread.
  assert (Hbase : dom (additionalClaims b
                       ∪ obj_literal [("iss", optional JStr (issuer b)); ("jti", JStr id);
                                      ("iat", JNum t); ("events", JObj (events b))])
                  = {[ "iss"; "jti"; "iat"; "events" ]} ∪ dom (additionalClaims b)).
  { rewrite dom_union_L. apply (comm_L (∪)). }
  destruct (audience b) as [[s|l]|]; cbn [optional from_option of_string_or_array truthy];
    [destruct s as [|a s]; cbn [String.eqb negb]| |];
    (destruct (txn b) as [[|a' x]|]; cbn [optional from_option truthy String.eqb negb];
     rewrite ?dom_insert_L, Hbase; set_solver).
Qed.

(** X11.  In the payload, [aud] is the builder's audience whenever that is
    set to something other than the empty string, and [txn] the builder's
    transaction identifier whenever that is set and non-empty, whatever the
    custom claims say; when the builder's value is unset or the empty
    string, the claim is the custom claim of that name if there is one and
    is absent otherwise. *)
Theorem aud_and_txn_claims (b : SecEventBuilder) (w w' : World) (p : JsObject) :
  buildPayload b w = (w', inl p) →
  (∀ a, audience b = Some a → a ≠ OneString "" →
     p !! "aud" = Some (of_string_or_array a))
  ∧ (audience b = None ∨ audience b = Some (OneString "") →
     p !! "aud" = additionalClaims b !! "aud")
  ∧ (∀ x, txn b = Some x → x ≠ "" → p !! "txn" = Some (JStr x))
  ∧ (txn b = None ∨ txn b = Some "" → p !! "txn" = additionalClaims b !! "txn").
Proof.
  intros (id & t & -> & _ & _)%buildPayload_returns.
  assert (Ha : ∀ a, a ≠ OneString "" → truthy (of_string_or_array a) = true).
  { intros [s|l] H; [|done]. apply BuilderFacts.truthy_string. congruence. }
  assert (Hlit : ∀ k, k = "aud" ∨ k = "txn" →
            (additionalClaims b
             ∪ obj_literal [("iss", optional JStr (issuer b)); ("jti", JStr id);
                            ("iat", JNum t); ("events", JObj (events b))]) !! k
            = additionalClaims b !! k).
  { intros k Hk. rewrite lookup_union.
    assert (obj_literal [("iss", optional JStr (issuer b)); ("jti", JStr id);
                         ("iat", JNum t); ("events", JObj (events b))] !! k = None) as ->.
    { by destruct Hk as [-> | ->]. }
    by destruct (additionalClaims b !! k). }
  unfold assembled, spread. split; [|split; [|split]].
  - intros a Hb Hne. rewrite Hb. cbn [optional from_option]. rewrite Ha by done.
    case_match; [by rewrite lookup_insert_ne, lookup_insert_eq|by rewrite lookup_insert_eq].
  - intros Hb.
    assert (truthy (optional of_string_or_array (audience b)) = false) as ->.
    { by destruct Hb as [-> | ->]. }
    case_match; rewrite ?lookup_insert_ne by done; apply Hlit; auto.
  - intros x Hx Hne. rewrite Hx. cbn [optional from_option].
    rewrite BuilderFacts.truthy_string by done. by rewrite lookup_insert_eq.
  - intros Hx.
    assert (truthy (optional JStr (txn b)) = false) as ->.
    { by destruct Hx as [-> | ->]. }
    case_match; rewrite ?lookup_insert_ne by done; apply Hlit; auto.
Qed.

(** A custom claim the object has of its own, under a name other than
    [aud] and [txn], is in the payload. *)
Lemma own_claim_in_payload (b : SecEventBuilder) (w w' : World) (p : JsObject)
    (k : string) (v : JsValue) :
  buildPayload b w = (w', inl p) →
  additionalClaims b !! k = Some v → k ≠ "aud" → k ≠ "txn" →
  p !! k = Some v.
Proof.
  intros (id & t & -> & _ & _)%buildPayload_returns Hk Haud Htxn.
  by apply BuilderFacts.assembled_lookup_shadowed.
Qed.

Lemma withEvents_claims (evs : list JsObject) (b : SecEventBuilder) :
  additionalClaims (withEvents evs b) = additionalClaims b.
Proof.
  unfold withEvents. revert b.
  induction evs as [|e evs IH]; intros b; cbn; [done|]. by rewrite IH.
Qed.

(** A call that does not write the claim [k] leaves it as it is. *)
Lemma mutate_keeps_claim (m : Mutator KeyMaterial) (b : SecEventBuilder) (k : string) :
  writes_claim k m = false →
  additionalClaims (mutate m b) !! k = additionalClaims b !! k.
Proof.
  destruct m; cbn; intros Hw; try done.
  - by rewrite withEvents_claims.
  - apply String.eqb_neq in Hw. unfold withClaim.
    repeat case_match; cbn; try done; by rewrite lookup_insert_ne.
  - unfold spread. apply bool_decide_eq_false in Hw.
    rewrite lookup_union_r; [done|]. by apply eq_None_not_Some.
Qed.

Lemma chain_keeps_claim (ms : list (Mutator KeyMaterial)) (b : SecEventBuilder) (k : string) :
  Forall (fun m => writes_claim k m = false) ms →
  additionalClaims (chain ms b) !! k = additionalClaims b !! k.
Proof.
  unfold chain. intros H. revert b.
  induction H as [|m ms Hm _ IH]; intros b; cbn; [done|].
  by rewrite IH, mutate_keeps_claim.
Qed.

(** X12.  A claim added with [withClaim(k, v)] under a name other than
    [aud], [txn] and [__proto__], or with [withClaims] in an object that has
    the property [k] (other than [aud] and [txn]) holding [v], is in the
    payload with that value, whatever calls follow that do not write the
    claim again; this includes the names [iss], [jti], [iat] and [events].
    The name [__proto__] is different for [withClaim]: on custom claims with
    the default prototype and no property of that name, the call adds no
    claim at all. *)
Theorem custom_claims_in_payload (b : SecEventBuilder)
    (ms : list (Mutator KeyMaterial)) (k : string) (v : JsValue) :
  k ≠ "aud" → k ≠ "txn" →
  Forall (fun m => writes_claim k m = false) ms →
  (k ≠ "__proto__" →
     ∀ w w' p, buildPayload (chain ms (withClaim k v b)) w = (w', inl p) →
       p !! k = Some v)
  ∧ (∀ claims w w' p, claims !! k = Some v →
       buildPayload (chain ms (withClaims claims b)) w = (w', inl p) →
       p !! k = Some v)
  ∧ (claims_prototype b = Object_prototype →
     additionalClaims b !! "__proto__" = None →
     additionalClaims (withClaim "__proto__" v b) = additionalClaims b).
Proof.
  intros Haud Htxn Hms. split; [|split].
  - intros Hk w w' p Hp. eapply own_claim_in_payload; [done| |done..].
    rewrite chain_keeps_claim by done. unfold withClaim.
    apply String.eqb_neq in Hk. rewrite Hk. cbn. apply lookup_insert_eq.
  - intros claims w w' p Hc Hp. eapply own_claim_in_payload; [done| |done..].
    rewrite chain_keeps_claim by done. cbn. unfold spread.
    by apply lookup_union_Some_l.
  - intros Hproto Hnone. unfold withClaim, has_prop.
    rewrite Hproto, Hnone. rewrite bool_decide_eq_false_2 by (by intros [? ?]).
    cbn. by destruct v.
Qed.

Lemma withEvents_snoc (es : list JsObject) (e : JsObject) (b : SecEventBuilder) :
  withEvents (es ++ [e]) b = withEvent e (withEvents es b).
Proof. unfold withEvents. by rewrite foldl_app. Qed.

(** X13.  [withEvents] merges its arguments into the accumulated events
    from left to right: the resulting mapping has the event types that were
    there and those of every argument; for each type the data is that of
    the last argument that has it, or else what was there before.  No event
    type is ever dropped, and [withEvent(e)] is [withEvents(e)]. *)
Theorem withEvents_merges (es : list JsObject) (e : JsObject) (b : SecEventBuilder) :
  dom (events (withEvents es b)) = dom (events b) ∪ ⋃ (dom <$> es)
  ∧ (∀ k, events (withEvents (es ++ [e]) b) !! k
          = match e !! k with
            | Some v => Some v
            | None => events (withEvents es b) !! k
            end)
  ∧ withEvent e b = withEvents [e] b.
Proof.
  split; [|split; [|done]].
  - revert b. induction es as [|e' es IH]; intros b; cbn.
    + by rewrite (right_id_L ∅ (∪)).
    + unfold withEvents in IH |- *. cbn. rewrite IH. cbn. unfold spread.
      rewrite dom_union_L. set_solver.
  - intros k. rewrite withEvents_snoc. cbn. unfold spread. rewrite lookup_union.
    destruct (e !! k), (events (withEvents es b) !! k); done.
Qed.

End WithWorld.

(** The theorems with a premise, on the sample builder: the equation of
    [buildPayload] for a chain that sets the issuer and adds a verification
    event. *)
Ltac sample_payload E :=
  unfold Sample.build;
  match goal with
  | |- context [Builder.buildPayload ?g ?c ?b ?w] =>
      assert (E := BuilderFacts.buildPayload_success g c b w
                     "https://idp.example.com" eq_refl
                     ltac:(discriminate)
                     ltac:(intros Hev;
                           apply (f_equal (fun m => m !! Events.VERIFICATION)) in Hev;
                           vm_compute in Hev; discriminate Hev))
  end.

Lemma payload_claim_names_witness :
  match (Sample.build Sample.plain_options
           [WithIssuer "https://idp.example.com"; WithTxn "txn-1";
            WithEvent (Events.verification None)]).2 with
  | inl p => dom p = {[ "iss"; "jti"; "iat"; "events"; "txn" ]}
  | inr _ => False
  end.
Proof.
  sample_payload E. rewrite E. cbn [snd].
  rewrite (payload_claim_names _ _ _ _ _ _ E). vm_compute. reflexivity.
Defined.

Lemma aud_and_txn_claims_witness :
  claim_of
    (Sample.build Sample.plain_options
       [WithIssuer "https://idp.example.com"; WithTxn "txn-1";
        WithEvent (Events.verification None); WithClaim "txn" (JStr "other")])
    "txn"
  = Some (JStr "txn-1").
Proof.
  sample_payload E. unfold claim_of. rewrite E. cbn [snd].
  destruct (aud_and_txn_claims _ _ _ _ _ _ E) as (_ & _ & H & _).
  apply (H "txn-1"); [reflexivity|discriminate].
Defined.

Lemma custom_claims_in_payload_witness :
  claim_of
    (Sample.build Sample.plain_options
       [WithClaim "tenant" (JStr "acme"); WithIssuer "https://idp.example.com";
        WithEvent (Events.verification None)])
    "tenant"
  = Some (JStr "acme").
Proof.
  sample_payload E. unfold claim_of. rewrite E. cbn [snd].
  destruct (custom_claims_in_payload Sample.counting_generator Sample.clock
              (new_SecEventBuilder Sample.plain_options)
              [WithIssuer "https://idp.example.com";
               WithEvent (Events.verification None)]
              "tenant" (JStr "acme")) as [H _];
    [discriminate|discriminate|by repeat constructor|].
  eapply H; [discriminate|exact E].
Defined.

(** A [__proto__] given to [withClaim] is no claim of the payload, while
    one that comes in through [withClaims] is; and once [withClaim] has made
    the prototype of the custom claims [null], the clone, whose custom
    claims start with the default prototype again, is no longer the builder
    it was cloned from: the next [withClaim('__proto__', ...)] adds a claim
    to the one and not to the other. *)
Lemma proto_claims :
  let base := [WithIssuer "https://idp.example.com";
               WithEvent (Events.verification None)] in
  let nulled := chain (base ++ [WithClaim "__proto__" JNull])
                  (new_SecEventBuilder Sample.plain_options) in
  claim_of (Sample.build Sample.plain_options
              (base ++ [WithClaim "__proto__" (JStr "x")])) "__proto__" = None
  ∧ claim_of (Sample.build Sample.plain_options
                (base ++ [WithClaims {[ "__proto__" := JStr "x" ]}])) "__proto__"
    = Some (JStr "x")
  ∧ clone nulled ≠ nulled
  ∧ additionalClaims (withClaim "__proto__" (JStr "x") nulled) !! "__proto__"
    = Some (JStr "x")
  ∧ additionalClaims (withClaim "__proto__" (JStr "x") (clone nulled)) !! "__proto__"
    = None.
Proof.
  split; [|split; [|split; [|split]]]; try (vm_compute; reflexivity).
  intros H. apply (f_equal claims_prototype) in H. discriminate H.
Qed.

End BuilderUse.

(** ** Properties of [sign] *)

Module SigningFacts.

Import Builder Signing.

Local Set Warnings "-clear-no-such-hyp".

Section WithSigner.

Context {World KeyMaterial : Type}.
Variable defaultIdGenerator : World -> string * World.
Variable Date_now : World -> Z.
Variable SignJWT_sign :
  World -> SignRequest KeyMaterial -> World * (string + Thrown).

Abbreviation SecEventBuilder := (SecEventBuilder World KeyMaterial).
Abbreviation buildPayload := (buildPayload defaultIdGenerator Date_now).
Abbreviation sign := (sign defaultIdGenerator Date_now SignJWT_sign).

(** X14.  [sign] looks for the key before it builds the payload: with no
    key argument and no key on the builder it fails with the missing-key
    error whatever the state of the builder (also when the issuer or the
    events are missing), without calling the ID generator or the signer.
    With a key, an error of [buildPayload] is thrown as it is and the
    signer is not called. *)
Theorem sign_failures (b : SecEventBuilder) (signingKey : option (SigningKey KeyMaterial))
    (w : World) :
  (key_in_use b signingKey = None →
     sign b signingKey w = (w, inr (ErrorObj "Signing key is required")))
  ∧ (∀ w1 e, is_Some (key_in_use b signingKey) →
       buildPayload b w = (w1, inr e) → sign b signingKey w = (w1, inr e)).
Proof.
  unfold Signing.sign. split.
  - intros H. by rewrite H.
  - intros w1 e [k Hk] Hp. by rewrite Hk, Hp.
Qed.

(** X15.  With a key and a payload, [sign] calls the signer once, after the
    payload is built, with the payload as the claims, the material of the
    key argument if there is one and else of the builder's key, and a
    protected header that has the key's algorithm, the type
    [secevent+jwt], the key identifier when the key has a non-empty one,
    and nothing else.  It returns the signer's token together with the
    payload [buildPayload] gave, and throws what the signer throws. *)
Theorem sign_delegates (b : SecEventBuilder) (signingKey : option (SigningKey KeyMaterial))
    (w w1 : World) (k : SigningKey KeyMaterial) (p : JsObject) :
  key_in_use b signingKey = Some k →
  buildPayload b w = (w1, inl p) →
  ∃ request,
    claims request = p
    ∧ signing_key request = key k
    ∧ protectedHeader request !! "alg" = Some (JStr (alg k))
    ∧ protectedHeader request !! "typ" = Some (JStr "secevent+jwt")
    ∧ protectedHeader request !! "kid"
      = match kid k with
        | Some "" | None => None
        | Some id => Some (JStr id)
        end
    ∧ dom (protectedHeader request) ⊆ {[ "alg"; "typ"; "kid" ]}
    ∧ issuedAt request = prop p "iat"
    ∧ issuer request = prop p "iss"
    ∧ jwtId request = prop p "jti"
    ∧ sign b signingKey w
      = match SignJWT_sign w1 request with
        | (w2, inl token) => (w2, inl {| jwt := token; payload := p |})
        | (w2, inr e) => (w2, inr e)
        end.
Proof.
  intros Hk Hp. exists (request_for p k).
  unfold Signing.sign. rewrite Hk, Hp.
  unfold request_for, protected_header, spread; cbn [claims signing_key protectedHeader
    issuedAt issuer jwtId].
  repeat split; try reflexivity.
  - destruct (kid k) as [[|a s]|]; reflexivity.
  - destruct (kid k) as [[|a s]|]; reflexivity.
  - destruct (kid k) as [[|a s]|]; reflexivity.
  - destruct (kid k) as [[|a s]|]; cbn [optional from_option truthy String.eqb negb];
      rewrite ?(left_id_L ∅ (∪)), ?dom_union_L;
      unfold obj_literal; cbn; rewrite !dom_insert_L, dom_empty_L; set_solver.
Qed.

End WithSigner.

(** A signer that returns a fixed token, and a builder without a key. *)
Lemma sign_failures_witness :
  Signing.sign Sample.counting_generator Sample.clock
    (fun w _ => (S w, inl "header.claims.signature"))
    (new_SecEventBuilder Sample.plain_options) None 0%nat
  = (0%nat, inr (ErrorObj "Signing key is required")).
Proof.
  destruct (sign_failures Sample.counting_generator Sample.clock
              (fun w _ => (S w, inl "header.claims.signature"))
              (new_SecEventBuilder Sample.plain_options) None 0%nat) as [H _].
  apply H. reflexivity.
Defined.

Lemma sign_delegates_witness :
  match
    (Signing.sign Sample.counting_generator Sample.clock
       (fun w _ => (S w, inl "header.claims.signature"))
       (chain [WithIssuer "https://idp.example.com";
               WithEvent (Events.verification None)]
          (new_SecEventBuilder Sample.plain_options))
       (Some (Sample.hmac "secret")) 0%nat).2
  with
  | inl signed => jwt signed = "header.claims.signature"
  | inr _ => False
  end.
Proof.
  match goal with
  | |- context [Signing.sign ?g ?c ?s ?b ?sk ?w] =>
      assert (E := BuilderFacts.buildPayload_success g c b w
                     "https://idp.example.com" eq_refl
                     ltac:(discriminate)
                     ltac:(intros Hev;
                           apply (f_equal (fun m => m !! Events.VERIFICATION)) in Hev;
                           vm_compute in Hev; discriminate Hev));
      destruct (sign_delegates g c s b sk w _ (Sample.hmac "secret") _ eq_refl E)
        as (request & _ & _ & _ & _ & _ & _ & _ & _ & _ & ->)
  end.
  reflexivity.
Defined.

End SigningFacts.

(** ** More properties of the parser *)

Module ParserUse.

Import Parser Accessors.

Local Set Warnings "-clear-no-such-hyp".

Section WithVerifier.

Context {World KeyMaterial : Type}.
Variable new_URL : string -> URL + Thrown.
Variable jwtVerify :
  World -> string -> KeySource KeyMaterial -> JWTVerifyOptions
  -> World * (JsObject + Thrown).

Abbreviation SecEventParser := (SecEventParser KeyMaterial).
Abbreviation State := (State World KeyMaterial).
Abbreviation verify := (verify new_URL jwtVerify).
Abbreviation validateSecEvent := (validateSecEvent new_URL).
Abbreviation validation_result := (validation_result new_URL).
Abbreviation isValidEventUri := (isValidEventUri new_URL).
Abbreviation event_errors := (event_errors new_URL).

(** A run of [verify] whose last verifier call was accepted returns the
    validation result of the claims of that call, and only such a run is
    valid. *)
Lemma verify_accepted (this : SecEventParser) (jwt : string)
    (vk : option (KeyArgument KeyMaterial)) (co : option ValidationOptions) (st : State) :
  let m := mergeOptions (defaultValidationOptions (options this)) co in
  ∃ w' new r,
    verify this jwt vk co st = ({| world := w'; calls := calls st ++ new |}, inl r)
    ∧ (∀ c p, last new = Some c → call_outcome c = inl p → r = validation_result p m)
    ∧ (valid r = true → ∃ c p, last new = Some c ∧ call_outcome c = inl p).
Proof.
  intros m.
  destruct (ParserFacts.verify_run new_URL jwtVerify this jwt vk co st)
    as (w' & new & r0 & _ & Hsig & Hrun).
  fold m in Hsig, Hrun. eexists w', new, _. split; [exact Hrun|].
  apply ParserFacts.signature_run_last in Hsig. destruct r0 as [p0|e].
  - destruct Hsig as (c0 & Hl & Hp). split.
    + intros c p Hc Hcp. rewrite Hl in Hc. injection Hc as <-. congruence.
    + intros _. by exists c0, p0.
  - split.
    + intros c p Hc Hcp. destruct (Hsig c Hc) as (e0 & He0 & _). congruence.
    + done.
Qed.

Lemma filter_none {A : Type} (P : A → Prop) `{!∀ x, Decision (P x)} (l : list A) :
  (∀ x, x ∈ l → ¬ P x) → filter P l = [].
Proof.
  induction l as [|x l IH]; [done|]. intros Hall.
  rewrite filter_cons_False by (apply Hall; left).
  apply IH. intros y Hy. apply Hall. by right.
Qed.

Lemma structure_ok (p : JsObject) :
  structure_errors p = [] ↔ validatePayloadStructure p = inl tt.
Proof.
  unfold structure_errors. destruct (validatePayloadStructure p) as [[]|e]; split; done.
Qed.

Lemma structure_ok_events (p : JsObject) :
  validatePayloadStructure p = inl tt → truthy (prop p "events") = true.
Proof.
  unfold validatePayloadStructure.
  destruct (truthy (prop p "events")); [done|]. cbn. done.
Qed.

(** When [validateSecEvent] finds nothing. *)
Lemma validation_clean (p : JsObject) (m : ValidationOptions) :
  validateSecEvent p m = []
  ↔ validatePayloadStructure p = inl tt
    ∧ required_claim_errors p m = []
    ∧ Object_keys (prop p "events") ≠ []
    ∧ (∀ k, k ∈ Object_keys (prop p "events") → isValidEventUri k = true).
Proof.
  unfold Parser.validateSecEvent. rewrite !app_nil, structure_ok.
  split.
  - intros (Hs & Hr & He). split; [done|]. split; [done|].
    unfold Parser.event_errors in He. rewrite (structure_ok_events p Hs) in He.
    apply app_nil in He as [Hnone Hbad]. split.
    + intros Hk. by rewrite Hk in Hnone.
    + intros k Hk. destruct (isValidEventUri k) eqn:E; [done|].
      apply fmap_nil_inv in Hbad.
      by pose proof (filter_nil_not_elem_of _ _ k Hbad E).
  - intros (Hs & Hr & Hne & Hall). split; [done|]. split; [done|].
    unfold Parser.event_errors. rewrite (structure_ok_events p Hs).
    rewrite filter_none.
    + by destruct (Object_keys (prop p "events")).
    + intros k Hk. rewrite (Hall k Hk). done.
Qed.

(** X16.  A valid result of [verify] carries exactly the claims the
    verifier returned in its last call, and nothing else: no error, no
    error list.  Those claims pass the structural validation of [decode],
    have at least one event, and every key of their events is a valid
    event URI. *)
Theorem valid_result_is_sound (this : SecEventParser) (jwt : string)
    (vk : option (KeyArgument KeyMaterial)) (co : option ValidationOptions) (st : State) :
  ∃ w' new r,
    verify this jwt vk co st = ({| world := w'; calls := calls st ++ new |}, inl r)
    ∧ (valid r = true →
         ∃ c p, last new = Some c ∧ call_outcome c = inl p
           ∧ payload r = Some p ∧ error r = None ∧ errors r = None
           ∧ validatePayloadStructure p = inl tt
           ∧ Object_keys (prop p "events") ≠ []
           ∧ (∀ k, k ∈ Object_keys (prop p "events") → isValidEventUri k = true)).
Proof.
  destruct (verify_accepted this jwt vk co st) as (w' & new & r & Hrun & Hacc & Hvalid).
  exists w', new, r. split; [done|]. intros Hv.
  destruct (Hvalid Hv) as (c & p & Hl & Hp). exists c, p.
  rewrite (Hacc c p Hl Hp) in Hv |- *.
  destruct (ParserFacts.validation_result_cases new_URL p
              (mergeOptions (defaultValidationOptions (options this)) co))
    as [[Hnil ->]|[_ Hbad]]; [|by rewrite Hbad in Hv].
  apply validation_clean in Hnil as (Hs & _ & Hne & Hall). done.
Qed.

(** X17.  Every call [verify] makes to the verifier carries the token it
    was given and the same constraints, those derived from the merged
    options; there is at most one call when the parser has a remote key
    set, at most one per candidate key otherwise, and none when there is
    neither. *)
Theorem verifier_calls (this : SecEventParser) (jwt : string)
    (vk : option (KeyArgument KeyMaterial)) (co : option ValidationOptions) (st : State) :
  let m := mergeOptions (defaultValidationOptions (options this)) co in
  ∃ w' new r,
    verify this jwt vk co st = ({| world := w'; calls := calls st ++ new |}, inl r)
    ∧ Forall (fun c => call_jwt c = jwt ∧ call_options c = jwtOptions_of m) new
    ∧ length new
      ≤ match jwks this, candidate_keys this vk with
        | Some _, _ => 1
        | None, Some ks => length ks
        | None, None => 0
        end.
Proof.
  intros m.
  destruct (ParserFacts.verify_run new_URL jwtVerify this jwt vk co st)
    as (w' & new & r0 & _ & Hsig & Hrun).
  fold m in Hsig, Hrun. eexists w', new, _. split; [exact Hrun|].
  unfold signature_run in Hsig.
  destruct (jwks this) as [j|]; [|destruct (candidate_keys this vk) as [ks|]].
  - destruct Hsig as (c & -> & _ & Hj & Ho & _). split; [|done].
    by repeat constructor.
  - destruct Hsig as (Hkeys & Hargs & _). split; [done|].
    apply (f_equal length) in Hkeys. unfold direct in Hkeys.
    rewrite !length_fmap, length_take in Hkeys. lia.
  - destruct Hsig as [-> _]. split; [constructor|done].
Qed.

(** X18.  When the claims the verifier returned fail the structural
    validation, the result is invalid, has no payload, and the structural
    error is the first entry of its error list, before any error about
    required claims or events. *)
Theorem structural_error_comes_first (this : SecEventParser) (jwt : string)
    (vk : option (KeyArgument KeyMaterial)) (co : option ValidationOptions) (st : State) :
  ∃ w' new r,
    verify this jwt vk co st = ({| world := w'; calls := calls st ++ new |}, inl r)
    ∧ (∀ c p msg, last new = Some c → call_outcome c = inl p →
         validatePayloadStructure p = inr (ErrorObj msg) →
         valid r = false ∧ payload r = None
         ∧ ∃ rest, errors r = Some (msg :: rest)).
Proof.
  destruct (verify_accepted this jwt vk co st) as (w' & new & r & Hrun & Hacc & _).
  exists w', new, r. split; [done|]. intros c p msg Hl Hp Hs.
  rewrite (Hacc c p Hl Hp).
  assert (Hv : ∃ rest, Parser.validateSecEvent new_URL p
                         (mergeOptions (defaultValidationOptions (options this)) co)
                       = msg :: rest).
  { unfold Parser.validateSecEvent, structure_errors. rewrite Hs. by eexists. }
  destruct Hv as [rest Hv].
  unfold Parser.validation_result. rewrite Hv. cbn. eauto.
Qed.

(** X19.  Verified claims whose [events] is an empty mapping are
    rejected: the result is invalid and its error list contains
    ["No events present in events claim"]. *)
Theorem empty_events_rejected (this : SecEventParser) (jwt : string)
    (vk : option (KeyArgument KeyMaterial)) (co : option ValidationOptions) (st : State) :
  ∃ w' new r,
    verify this jwt vk co st = ({| world := w'; calls := calls st ++ new |}, inl r)
    ∧ (∀ c p, last new = Some c → call_outcome c = inl p →
         p !! "events" = Some (JObj ∅) →
         valid r = false
         ∧ ∃ es, errors r = Some es ∧ "No events present in events claim" ∈ es).
Proof.
  destruct (verify_accepted this jwt vk co st) as (w' & new & r & Hrun & Hacc & _).
  exists w', new, r. split; [done|]. intros c p Hl Hp Hev.
  rewrite (Hacc c p Hl Hp).
  set (m := mergeOptions _ _).
  assert (Hin : "No events present in events claim" ∈ validateSecEvent p m).
  { unfold Parser.validateSecEvent, Parser.event_errors.
    apply ParserFacts.prop_lookup in Hev; [|done]. rewrite Hev.
    cbn [truthy Object_keys]. unfold own_keys. rewrite map_to_list_empty. cbn.
    rewrite !elem_of_app. right. right. left. }
  destruct (ParserFacts.validation_result_cases new_URL p m) as [[Hnil _]|[_ ->]].
  - rewrite Hnil in Hin. by apply elem_of_nil in Hin.
  - cbn. split; [done|]. by eexists.
Qed.

Lemma required_claim_message (c : string) (e : string) :
  e ∈ ["Missing or invalid events claim"; "Missing or invalid issuer claim";
       "Missing or invalid jti claim"; "Missing or invalid iat claim";
       "No events present in events claim"] →
  "Missing required claim: " +:+ c ≠ e.
Proof.
  intros He Heq. apply (f_equal (String.substring 8 1)) in Heq.
  repeat (apply elem_of_cons in He as [->|He]; [vm_compute in Heq; discriminate Heq|]).
  by apply elem_of_nil in He.
Qed.

Lemma in_operator_false (name : string) (p : JsObject) :
  in_operator name p = false ↔ p !! name = None ∧ name ∉ Object_prototype_names.
Proof.
  unfold in_operator, has_prop, inherited.
  rewrite orb_false_iff, !bool_decide_eq_false, <- eq_None_not_Some. done.
Qed.

(** The required claims of the merged options are those in force. *)
Lemma merged_required (defaults call : option ValidationOptions) :
  read (requiredClaims (mergeOptions defaults call)) = required_in_force defaults call.
Proof.
  unfold required_in_force.
  destruct defaults as [d|], call as [c|]; cbn; try done;
    by destruct (requiredClaims c).
Qed.

(** X20.  The required claims that [verify] checks are those of the call's
    options when these have the property [requiredClaims] (none when it
    holds [undefined]), and else those of the parser's default options.
    For verified claims, the result has the error
    ["Missing required claim: <name>"] exactly for the names in that list
    that the claims neither have as a property of their own nor inherit
    (as they do [toString] or [constructor]), and such a name makes the
    result invalid. *)
Theorem required_claims_checked (this : SecEventParser) (jwt : string)
    (vk : option (KeyArgument KeyMaterial)) (co : option ValidationOptions) (st : State) :
  let in_force := required_in_force (defaultValidationOptions (options this)) co in
  ∃ w' new r,
    verify this jwt vk co st = ({| world := w'; calls := calls st ++ new |}, inl r)
    ∧ (∀ c p, last new = Some c → call_outcome c = inl p →
         (∀ name, "Missing required claim: " +:+ name ∈ default [] (errors r)
                  ↔ ∃ required, in_force = Some required ∧ name ∈ required
                                ∧ p !! name = None ∧ name ∉ Object_prototype_names)
         ∧ (∀ required name, in_force = Some required → name ∈ required →
              p !! name = None → name ∉ Object_prototype_names → valid r = false)).
Proof.
  intros in_force. set (m := mergeOptions (defaultValidationOptions (options this)) co).
  assert (Hreq : read (requiredClaims m) = in_force) by apply merged_required.
  destruct (verify_accepted this jwt vk co st) as (w' & new & r & Hrun & Hacc & _).
  exists w', new, r. split; [done|]. intros c p Hl Hp.
  rewrite (Hacc c p Hl Hp). fold m.
  assert (Hmissing : ∀ name, "Missing required claim: " +:+ name ∈ validateSecEvent p m
                             ↔ ∃ required, in_force = Some required ∧ name ∈ required
                                 ∧ p !! name = None ∧ name ∉ Object_prototype_names).
  { intros name. unfold Parser.validateSecEvent, required_claim_errors.
    rewrite Hreq. rewrite !elem_of_app. split.
    - intros [H|[H|H]].
      + exfalso. unfold structure_errors, validatePayloadStructure in H.
        repeat case_match; simplify_eq; cbn in H;
          try (by apply elem_of_nil in H);
          apply list_elem_of_singleton in H;
          (eapply required_claim_message; [|exact H]; set_solver).
      + destruct in_force as [required|]; [|by apply elem_of_nil in H].
        apply list_elem_of_fmap in H as (n & Hn & H).
        apply (inj (String.append _)) in Hn as <-.
        apply list_elem_of_filter in H as [H ?]. exists required.
        split; [done|]. split; [done|]. by apply in_operator_false.
      + exfalso. unfold Parser.event_errors in H.
        case_match; [|by apply elem_of_nil in H].
        apply elem_of_app in H as [H|H].
        * case_match; [|by apply elem_of_nil in H].
          apply list_elem_of_singleton in H.
          eapply required_claim_message; [|exact H]; set_solver.
        * apply list_elem_of_fmap in H as (k & Hk & _). discriminate Hk.
    - intros (required & -> & Hin & Hnone). right. left.
      apply list_elem_of_fmap. exists name. split; [done|].
      apply list_elem_of_filter. split; [|done]. by apply in_operator_false. }
  destruct (ParserFacts.validation_result_cases new_URL p m) as [[Hnil ->]|[Hne ->]]; cbn.
  - split.
    + intros name. rewrite <- Hmissing, Hnil. done.
    + intros required name Hf Hin Hnone Hinh. exfalso.
      assert (H : "Missing required claim: " +:+ name ∈ validateSecEvent p m)
        by (apply Hmissing; eauto).
      rewrite Hnil in H. by apply elem_of_nil in H.
  - split; [|done]. intros name. by rewrite <- Hmissing.
Qed.

End WithVerifier.


(** *** The read accessors *)

Lemma own_keys_elem (ev : JsObject) (k : string) :
  k ∈ own_keys ev ↔ is_Some (ev !! k).
Proof.
  unfold own_keys. rewrite list_elem_of_fmap. split.
  - intros ([k' v] & -> & H). exists v. by apply elem_of_map_to_list.
  - intros [v H]. exists (k, v). split; [done|]. by apply elem_of_map_to_list.
Qed.

Lemma events_of_prop (p ev : JsObject) :
  events_of p = Some ev → prop p "events" = JObj ev.
Proof.
  unfold events_of, prop. destruct (p !! "events") as [[]|]; try done.
  by intros [= ->].
Qed.

(** What the accessors find for an event type of the mapping. *)
Lemma accessors_read (p ev : JsObject) (k : string) (v : JsValue) :
  events_of p = Some ev → ev !! k = Some v →
  k ∈ getEventTypes p ∧ hasEvent p k = Some true ∧ extractEvent p k = Some v.
Proof.
  intros Hev Hk. pose proof (events_of_prop p ev Hev) as Hprop.
  unfold getEventTypes, hasEvent, extractEvent, in_operator.
  rewrite Hev, Hprop. cbn [Object_keys fmap option_fmap option_map mbind option_bind].
  rewrite Hk. split; [apply own_keys_elem; eauto|]. split; [|done].
  unfold has_prop. by rewrite Hk, bool_decide_eq_true_2.
Qed.

(** X21.  On a payload whose [events] is a mapping, [getEventTypes] lists
    the event types of the mapping, each once; for every listed type
    [hasEvent] answers [true] and [extractEvent] returns the data stored
    for it; for a type that is not listed and is not a name objects
    inherit, [hasEvent] answers [false] and [extractEvent] returns
    [undefined]; and [hasEvent] answers [true] for the inherited names
    whether listed or not. *)
Theorem accessors_agree (p ev : JsObject) :
  events_of p = Some ev →
  extractEvents p = JObj ev
  ∧ NoDup (getEventTypes p)
  ∧ (∀ k, k ∈ getEventTypes p ↔ is_Some (ev !! k))
  ∧ (∀ k v, ev !! k = Some v →
       hasEvent p k = Some true ∧ extractEvent p k = Some v)
  ∧ (∀ k, ev !! k = None → inherited k = false →
       hasEvent p k = Some false ∧ extractEvent p k = Some JUndefined)
  ∧ (∀ k, inherited k = true → hasEvent p k = Some true).
Proof.
  intros Hev. pose proof (events_of_prop p ev Hev) as Hprop.
  unfold extractEvents, getEventTypes, hasEvent, extractEvent, in_operator.
  rewrite Hev, Hprop. cbn [Object_keys fmap option_fmap option_map mbind option_bind].
  split; [done|]. split; [apply NoDup_fst_map_to_list|].
  split; [apply own_keys_elem|]. split; [|split].
  - intros k v Hk. rewrite Hk. split; [|done].
    unfold has_prop. by rewrite Hk, bool_decide_eq_true_2.
  - intros k Hk Hin. rewrite Hk, Hin. split; [|done].
    unfold has_prop. rewrite Hk, bool_decide_eq_false_2; [done|]. by intros [? ?].
  - intros k ->. by rewrite orb_true_r.
Qed.

(** *** The parser on sample tokens *)

Lemma valid_result_is_sound_witness :
  ∃ w' new r,
    verify Sample.new_URL Sample.jwtVerify Sample.plain_parser "a.b.c"
      (Some (SingleKey (Sample.hmac "correct"))) None Sample.start
    = ({| world := w'; calls := new |}, inl r)
    ∧ ∃ c p, last new = Some c ∧ call_outcome c = inl p
        ∧ payload r = Some p ∧ error r = None ∧ errors r = None
        ∧ validatePayloadStructure p = inl tt
        ∧ Object_keys (prop p "events") ≠ []
        ∧ (∀ k, k ∈ Object_keys (prop p "events") →
             isValidEventUri Sample.new_URL k = true).
Proof.
  destruct (valid_result_is_sound Sample.new_URL Sample.jwtVerify
              Sample.plain_parser "a.b.c" (Some (SingleKey (Sample.hmac "correct")))
              None Sample.start)
    as (w' & new & r & Hrun & H).
  exists w', new, r. split; [exact Hrun|].
  apply H. vm_compute in Hrun. injection Hrun as _ _ <-. reflexivity.
Defined.

Lemma structural_error_comes_first_witness :
  ∃ w' new r,
    verify Sample.new_URL
      (Sample.jwtVerify_rejecting (ErrorObj "rejected") Scenario.no_issuer_payload)
      Sample.plain_parser "a.b.c" (Some (SingleKey (Sample.hmac "correct")))
      (Some Scenario.require_txn) Sample.start
    = ({| world := w'; calls := new |}, inl r)
    ∧ valid r = false ∧ payload r = None
    ∧ ∃ rest, errors r = Some ("Missing or invalid issuer claim" :: rest).
Proof.
  destruct (structural_error_comes_first Sample.new_URL
              (Sample.jwtVerify_rejecting (ErrorObj "rejected") Scenario.no_issuer_payload)
              Sample.plain_parser "a.b.c" (Some (SingleKey (Sample.hmac "correct")))
              (Some Scenario.require_txn) Sample.start)
    as (w' & new & r & Hrun & H).
  exists w', new, r. split; [exact Hrun|].
  pose proof Hrun as Hc. vm_compute in Hc. injection Hc as _ Hnew _.
  eapply H.
  - rewrite <- Hnew. reflexivity.
  - reflexivity.
  - vm_compute. reflexivity.
Defined.

Lemma empty_events_rejected_witness :
  ∃ w' new r,
    verify Sample.new_URL
      (Sample.jwtVerify_rejecting (ErrorObj "rejected") Scenario.empty_events_payload)
      Sample.plain_parser "a.b.c" (Some (SingleKey (Sample.hmac "correct")))
      None Sample.start
    = ({| world := w'; calls := new |}, inl r)
    ∧ valid r = false
    ∧ ∃ es, errors r = Some es ∧ "No events present in events claim" ∈ es.
Proof.
  destruct (empty_events_rejected Sample.new_URL
              (Sample.jwtVerify_rejecting (ErrorObj "rejected") Scenario.empty_events_payload)
              Sample.plain_parser "a.b.c" (Some (SingleKey (Sample.hmac "correct")))
              None Sample.start)
    as (w' & new & r & Hrun & H).
  exists w', new, r. split; [exact Hrun|].
  pose proof Hrun as Hc. vm_compute in Hc. injection Hc as _ Hnew _.
  eapply H.
  - rewrite <- Hnew. reflexivity.
  - reflexivity.
  - vm_compute. reflexivity.
Defined.

Lemma required_claims_checked_witness :
  ∃ w' new r,
    verify Sample.new_URL Sample.jwtVerify Scenario.strict_parser "a.b.c"
      (Some (SingleKey (Sample.hmac "correct"))) None Sample.start
    = ({| world := w'; calls := new |}, inl r)
    ∧ valid r = false
    ∧ "Missing required claim: txn" ∈ default [] (errors r)
    ∧ "Missing required claim: toString" ∉ default [] (errors r).
Proof.
  pose proof (required_claims_checked Sample.new_URL Sample.jwtVerify
                Scenario.strict_parser "a.b.c" (Some (SingleKey (Sample.hmac "correct")))
                None Sample.start) as H0.
  cbv zeta in H0. destruct H0 as (w' & new & r & Hrun & H).
  exists w', new, r. split; [exact Hrun|].
  pose proof Hrun as Hc. vm_compute in Hc. injection Hc as _ Hnew _.
  assert (Htxn : "txn" ∈ ["txn"; "toString"]) by (by left).
  assert (Hown : "txn" ∉ Object_prototype_names)
    by (intros Hx; apply (bool_decide_pack _) in Hx; vm_compute in Hx; exact Hx).
  assert (Hinherited : "toString" ∈ Object_prototype_names)
    by (apply (bool_decide_unpack _); vm_compute; exact I).
  edestruct H as [Hmiss Hinvalid].
  - rewrite <- Hnew. reflexivity.
  - reflexivity.
  - split; [|split].
    + apply (Hinvalid ["txn"; "toString"] "txn"); [reflexivity|exact Htxn| |exact Hown].
      vm_compute. reflexivity.
    + apply (Hmiss "txn"). exists ["txn"; "toString"].
      split; [reflexivity|]. split; [exact Htxn|]. split; [|exact Hown].
      vm_compute. reflexivity.
    + intros Hin. apply (Hmiss "toString") in Hin as (required & _ & _ & _ & Hinh).
      by apply Hinh.
Defined.

(** A call that spells out [requiredClaims: undefined] switches the
    parser's default list off. *)
Example required_claims_switched_off :
  (verify Sample.new_URL Sample.jwtVerify Scenario.strict_parser "a.b.c"
     (Some (SingleKey (Sample.hmac "correct"))) (Some Scenario.required_undefined)
     Sample.start).2
  = inl {| valid := true; payload := Some Sample.good_payload;
           error := None; errors := None |}.
Proof. reflexivity. Qed.

Lemma accessors_agree_witness :
  hasEvent Sample.good_payload Events.VERIFICATION = Some true
  ∧ hasEvent Sample.good_payload Events.SESSION_REVOKED = Some false
  ∧ hasEvent Sample.good_payload "toString" = Some true.
Proof.
  assert (He : events_of Sample.good_payload = Some (Events.verification (Some "ping")))
    by (vm_compute; reflexivity).
  destruct (accessors_agree Sample.good_payload _ He) as (_ & _ & _ & Hown & Hnone & Hinh).
  split; [|split].
  - eapply Hown. apply lookup_singleton_eq.
  - apply Hnone; [|reflexivity]. apply lookup_singleton_ne. discriminate.
  - apply Hinh. reflexivity.
Defined.

End ParserUse.

(** ** From the builder to the parser *)

Module RoundTrip.

Import Builder Parser Accessors.

Local Set Warnings "-clear-no-such-hyp".

Section WithWorld.

Context {World KeyMaterial : Type}.
Variable defaultIdGenerator : World -> string * World.
Variable Date_now : World -> Z.
Variable new_URL : string -> URL + Thrown.

Abbreviation SecEventBuilder := (SecEventBuilder World KeyMaterial).
Abbreviation buildPayload := (buildPayload defaultIdGenerator Date_now).

(** The four fixed claims of a built payload that no custom claim
    shadows. *)
Lemma built_claims (b : SecEventBuilder) (w w' : World) (p : JsObject) :
  buildPayload b w = (w', inl p) →
  ∃ i id t,
    i ≠ "" ∧ events b ≠ ∅
    ∧ (additionalClaims b !! "iss" = None → p !! "iss" = Some (JStr i))
    ∧ (additionalClaims b !! "jti" = None → p !! "jti" = Some (JStr id))
    ∧ (additionalClaims b !! "iat" = None → p !! "iat" = Some (JNum t))
    ∧ (additionalClaims b !! "events" = None → p !! "events" = Some (JObj (events b))).
Proof.
  intros (id & t & -> & (i & Hi & Hne) & Hev)%BuilderUse.buildPayload_returns.
  exists i, id, t. split; [done|]. split; [done|].
  repeat split; intros Hc; rewrite BuilderFacts.assembled_lookup by done;
    by rewrite ?Hi.
Qed.

(** X22.  The events accumulated in a builder can be read back from the
    payload it builds, unless a custom claim named [events] shadows them:
    the payload's events are the builder's mapping, every accumulated event
    type is listed by [getEventTypes] and found by [hasEvent], and
    [extractEvent] returns its data. *)
Theorem built_events_readable (b : SecEventBuilder) (w w' : World) (p : JsObject) :
  buildPayload b w = (w', inl p) →
  additionalClaims b !! "events" = None →
  events_of p = Some (events b)
  ∧ (∀ k v, events b !! k = Some v →
       k ∈ getEventTypes p ∧ hasEvent p k = Some true ∧ extractEvent p k = Some v).
Proof.
  intros (i & id & t & _ & _ & _ & _ & _ & Hev)%built_claims Hc.
  specialize (Hev Hc).
  assert (He : events_of p = Some (events b)) by (unfold events_of; by rewrite Hev).
  split; [done|]. intros k v Hk.
  exact (ParserUse.accessors_read p (events b) k v He Hk).
Qed.

(** X23.  A payload built by the builder passes the parser's structural
    validation, provided no custom claim is named [iss], [jti], [iat] or
    [events] and the payload's [jti] is not the empty string.  If moreover
    every accumulated event type is a valid event URI and no required
    claim is missing, [validateSecEvent] finds no error in it. *)
Theorem built_payload_validates (b : SecEventBuilder) (w w' : World) (p : JsObject) :
  buildPayload b w = (w', inl p) →
  (∀ k, k ∈ ["iss"; "jti"; "iat"; "events"] → additionalClaims b !! k = None) →
  p !! "jti" ≠ Some (JStr "") →
  validatePayloadStructure p = inl tt
  ∧ (∀ m, required_claim_errors p m = [] →
       (∀ k, is_Some (events b !! k) → isValidEventUri new_URL k = true) →
       validateSecEvent new_URL p m = []).
Proof.
  intros (i & id & t & Hi & Hne & Hiss & Hjti & Hiat & Hev)%built_claims Hc Hid.
  specialize (Hiss (Hc "iss" ltac:(set_solver))).
  specialize (Hjti (Hc "jti" ltac:(set_solver))).
  specialize (Hiat (Hc "iat" ltac:(set_solver))).
  specialize (Hev (Hc "events" ltac:(set_solver))).
  assert (Hs : validatePayloadStructure p = inl tt).
  { unfold validatePayloadStructure.
    rewrite (proj2 (ParserFacts.object_check p "events")) by (left; eauto).
    rewrite (proj2 (ParserFacts.string_check p "iss")) by eauto.
    rewrite (proj2 (ParserFacts.string_check p "jti")).
    - by rewrite (proj2 (ParserFacts.number_check p "iat")) by eauto.
    - exists id. split; [done|]. intros ->. done. }
  split; [done|]. intros m Hreq Hvalid.
  apply ParserUse.validation_clean. split; [done|]. split; [done|].
  apply ParserFacts.prop_lookup in Hev; [|done]. rewrite Hev. cbn [Object_keys].
  split.
  - intros Hk. apply Hne, BuilderFacts.no_events_iff. by rewrite Hk.
  - intros k Hk. apply Hvalid. by apply ParserUse.own_keys_elem.
Qed.

End WithWorld.

Lemma built_events_readable_witness :
  match (Builder.buildPayload Sample.counting_generator Sample.clock
           Scenario.verification_builder 0%nat).2 with
  | inl p =>
      Events.VERIFICATION ∈ getEventTypes p
      ∧ hasEvent p Events.VERIFICATION = Some true
      ∧ extractEvent p Events.VERIFICATION
        = Some (JObj (obj_literal [("state", JStr "ping")]))
  | inr _ => False
  end.
Proof.
  unfold Scenario.verification_builder. BuilderUse.sample_payload E.
  rewrite E. cbn [snd].
  destruct (built_events_readable _ _ _ _ _ _ E eq_refl) as [_ H].
  apply H. vm_compute. reflexivity.
Defined.

Lemma built_payload_validates_witness :
  match (Builder.buildPayload Sample.counting_generator Sample.clock
           Scenario.verification_builder 0%nat).2 with
  | inl p =>
      validatePayloadStructure p = inl tt
      ∧ validateSecEvent Sample.new_URL p no_options = []
  | inr _ => False
  end.
Proof.
  unfold Scenario.verification_builder. BuilderUse.sample_payload E.
  rewrite E. cbn [snd].
  destruct (built_payload_validates _ _ Sample.new_URL _ _ _ _ E) as [Hs Hv].
  - intros k _. apply lookup_empty.
  - vm_compute. discriminate.
  - split; [exact Hs|]. apply Hv; [reflexivity|].
    intros k [v Hk].
    match type of Hk with
    | ?m !! _ = _ =>
        assert (He : m = Events.verification (Some "ping")) by (vm_compute; reflexivity);
        rewrite He in Hk
    end.
    unfold Events.verification in Hk.
    apply lookup_singleton_Some in Hk as [<- _]. vm_compute. reflexivity.
Defined.

End RoundTrip.
